(** * Danesfield [tools/run_metrics.py]: the metrics pipeline orchestrator

    A shallow embedding of [create_working_dir], [generate_config_file] and
    [main] of [tools/run_metrics.py].  The script is glue code: it creates a
    working directory, copies the candidate rasters into it, renders a config
    file, reprojects the copies, narrows the DSM to Float32 and calls the
    CORE3D metrics engine.  Everything it does is an effect, so the model is
    a state-and-exception monad over a file system that also logs every
    external call in order.

    Scope of the file-system model: paths are POSIX strings; a path is
    resolved to the list of its components (empty and [.] components are
    dropped), so [out/x.tif], [out//x.tif] and [./out/x.tif] name one
    entry.  Symbolic links, [..] components, permissions and the relation
    between an absolute path and the current directory are not modelled. *)

From Stdlib Require Import String Ascii List NArith Lia Sorting.Sorted.
From stdpp Require Import base option list gmap strings pretty.

Local Open Scope string_scope.
Local Open Scope list_scope.

(** ** Python values used by the script *)

(** Truthiness of a [str]: [if s:] holds unless [s] is empty. *)
Definition truthy (s : string) : bool :=
  match s with
  | EmptyString => false
  | String _ _ => true
  end.


(** ** [posixpath] *)

Definition sep : ascii := "/"%char.

Definition startswith_sep (p : string) : bool :=
  match p with
  | String c _ => Ascii.eqb c sep
  | EmptyString => false
  end.

Fixpoint endswith_sep (p : string) : bool :=
  match p with
  | EmptyString => false
  | String c EmptyString => Ascii.eqb c sep
  | String _ r => endswith_sep r
  end.

(** [p.split('/')]: never an empty list; the empty path splits into one
    empty segment. *)
Fixpoint split_sep (p : string) : list string :=
  match p with
  | EmptyString => [EmptyString]
  | String c r =>
      if Ascii.eqb c sep then EmptyString :: split_sep r
      else match split_sep r with
           | s :: ss => String c s :: ss
           | [] => [String c EmptyString]
           end
  end.

(** [os.path.basename(p)] is [p[p.rfind('/') + 1:]], the last segment. *)
Definition basename (p : string) : string :=
  List.last (split_sep p) EmptyString.

(** [os.path.join(a, b)] with two arguments. *)
Definition join (a b : string) : string :=
  if startswith_sep b then b
  else if negb (truthy a) || endswith_sep a then a +:+ b
  else a +:+ "/" +:+ b.

(** ** File system *)

Inductive dtype := Float32 | Float64 | Int32 | UInt8.

(** What the pipeline can tell about a raster file: its CRS descriptor (a
    PROJ.4 string) when it has one, its pixel storage type, and its pixels
    as an opaque payload. *)
Record raster := Raster {
  raster_crs : option string;
  raster_dtype : dtype;
  raster_pixels : string
}.

(** A regular file holds a readable raster or any other bytes (the config
    document, a corrupt image). *)
Inductive content :=
  | RasterData (r : raster)
  | Bytes (s : string).

Inductive node :=
  | File (c : content)
  | Dir.

(** A resolved path: its components, outermost first; an absolute path
    starts with a component that is a single slash. *)
Definition key := list string.

Definition is_component (s : string) : bool :=
  negb (String.eqb s EmptyString) && negb (String.eqb s ".").

(** The components of a path: its segments without the empty ones and
    the [.] ones. *)
Definition components (p : string) : list string :=
  filter (fun s => is_component s = true) (split_sep p).

Definition resolve (p : string) : key :=
  (if startswith_sep p then ["/"] else []) ++ components p.

Definition parent (k : key) : key := removelast k.

(** The current directory (no component) and the root (the slash alone)
    always exist. *)
Definition is_anchor (k : key) : bool :=
  bool_decide (k = []) || bool_decide (k = ["/"]).

Definition lookup_node (fs : gmap key node) (k : key) : option node :=
  if is_anchor k then Some Dir else fs !! k.

(** [os.stat]: the empty path names nothing. *)
Definition stat (p : string) (fs : gmap key node) : option node :=
  if truthy p then lookup_node fs (resolve p) else None.

(** ** Exceptions, outcomes and the call log *)

Inductive exn :=
  | FileExistsError
  | FileNotFoundError
  | IsADirectoryError
  | NotADirectoryError
  | SameFileError
  | ExternalError (name : string).

Inductive outcome (A : Type) :=
  | Returned (a : A)
  | Raised (e : exn).
Arguments Returned {A} a.
Arguments Raised {A} e.

(** One entry per call the script makes outside itself, with its arguments;
    the CRS resolver also records what it answered. *)
Inductive event :=
  | PathExists (p : string)
  | Makedirs (p : string)
  | Mkdir (p : string)
  | Copyfile (src dst : string)
  | GetTemplate
  | PopulateTemplate (contents ref_prefix test_dsm test_cls test_mtl test_dtm : string)
  | GetFilename (test_dsm test_cls : string)
  | WriteFile (path contents : string)
  | GetCoordinateSystem (path : string) (answer : outcome string)
  | ConvertCoordinateSystem (path proj4 : string)
  | ConvertFloat32 (path : string)
  | Core3dMetrics (argv : list string).

(** A computation runs on a file system and yields an outcome, the file
    system it leaves behind (also when it raises) and the calls it made. *)
Definition M (A : Type) : Type :=
  gmap key node -> outcome A * gmap key node * list event.

Definition ret {A} (a : A) : M A := fun fs => (Returned a, fs, []).

Definition bind {A B} (m : M A) (f : A -> M B) : M B :=
  fun fs =>
    match m fs with
    | (Returned a, fs1, l1) =>
        match f a fs1 with
        | (r, fs2, l2) => (r, fs2, l1 ++ l2)
        end
    | (Raised e, fs1, l1) => (Raised e, fs1, l1)
    end.

Notation "x <- m ;; k" := (bind m (fun x => k))
  (at level 62, m at next level, right associativity).
Notation "m ;;; k" := (bind m (fun _ => k))
  (at level 62, right associativity).

(** A call that may change the file system. *)
Definition call {A} (e : event) (op : gmap key node -> outcome A * gmap key node) : M A :=
  fun fs => match op fs with (r, fs') => (r, fs', [e]) end.

(** A call that computes without touching the file system. *)
Definition call_pure {A} (e : event) (r : outcome A) : M A :=
  fun fs => (r, fs, [e]).

Definition result {A} (x : outcome A * gmap key node * list event) : outcome A := x.1.1.
Definition final_fs {A} (x : outcome A * gmap key node * list event) : gmap key node := x.1.2.
Definition log {A} (x : outcome A * gmap key node * list event) : list event := x.2.

(** ** [os] and [shutil] *)

(** [os.path.exists(p)] *)
Definition os_path_exists (p : string) (fs : gmap key node) : bool :=
  bool_decide (is_Some (stat p fs)).

Definition mkdir_key (k : key) (fs : gmap key node) : outcome unit * gmap key node :=
  match lookup_node fs k with
  | Some _ => (Raised FileExistsError, fs)
  | None =>
      match lookup_node fs (parent k) with
      | Some Dir => (Returned tt, <[k := Dir]> fs)
      | Some (File _) => (Raised NotADirectoryError, fs)
      | None => (Raised FileNotFoundError, fs)
      end
  end.

(** [os.mkdir(p)] *)
Definition os_mkdir (p : string) (fs : gmap key node) : outcome unit * gmap key node :=
  if truthy p then mkdir_key (resolve p) fs else (Raised FileNotFoundError, fs).

(** [os.makedirs] on a resolved path given innermost component first: when
    the head is not empty and does not exist it is made first (a
    [FileExistsError] from that is passed over), then the leaf is made. *)
Fixpoint makedirs_key (rk : list string) (fs : gmap key node) : outcome unit * gmap key node :=
  match rk with
  | [] => mkdir_key [] fs
  | _ :: rhead =>
      let head := rev rhead in
      if negb (bool_decide (head = [])) && negb (bool_decide (is_Some (lookup_node fs head))) then
        match makedirs_key rhead fs with
        | (Returned _, fs1) => mkdir_key (rev rk) fs1
        | (Raised FileExistsError, fs1) => mkdir_key (rev rk) fs1
        | (Raised e, fs1) => (Raised e, fs1)
        end
      else mkdir_key (rev rk) fs
  end.

(** [os.makedirs(p)] (with [exist_ok=False]) *)
Definition os_makedirs (p : string) (fs : gmap key node) : outcome unit * gmap key node :=
  if truthy p then makedirs_key (rev (resolve p)) fs else (Raised FileNotFoundError, fs).

(** Opening [p] for writing and writing [c]: creates or truncates the file. *)
Definition write_node (p : string) (c : content) (fs : gmap key node) : outcome unit * gmap key node :=
  if truthy p then
    match lookup_node fs (resolve p) with
    | Some Dir => (Raised IsADirectoryError, fs)
    | _ =>
        match lookup_node fs (parent (resolve p)) with
        | Some Dir => (Returned tt, <[resolve p := File c]> fs)
        | Some (File _) => (Raised NotADirectoryError, fs)
        | None => (Raised FileNotFoundError, fs)
        end
    end
  else (Raised FileNotFoundError, fs).

(** [shutil.copyfile(src, dst)]: refuses to copy a file onto itself, opens
    [src] for reading, then [dst] for writing. *)
Definition shutil_copyfile (src dst : string) (fs : gmap key node) : outcome unit * gmap key node :=
  if os_path_exists src fs && os_path_exists dst fs && bool_decide (resolve src = resolve dst)
  then (Raised SameFileError, fs)
  else
    match stat src fs with
    | None => (Raised FileNotFoundError, fs)
    | Some Dir => (Raised IsADirectoryError, fs)
    | Some (File c) => write_node dst c fs
    end.

(** [with open(p, 'w') as f: f.write(text)] *)
Definition open_write (p text : string) (fs : gmap key node) : outcome unit * gmap key node :=
  write_node p (Bytes text) fs.

(** ** The modules the script imports

    [danesfield.metrics.config], [danesfield.metrics.coordinate_system],
    [danesfield.metrics.datatype] and [core3dmetrics] are not part of
    [tools/run_metrics.py]; the script is verified against any
    implementation of them. *)
Class Collaborators := {
  config_get_template : outcome string;
  config_populate_template : string -> string -> string -> string -> string -> string -> outcome string;
  config_get_filename : string -> string -> outcome string;
  get_coordinate_system : string -> gmap key node -> outcome string;
  convert_coordinate_system : string -> string -> gmap key node -> outcome unit * gmap key node;
  convert_float32 : string -> gmap key node -> outcome unit * gmap key node;
  core3dmetrics_main : list string -> gmap key node -> outcome unit * gmap key node
}.

(** ** [tools/run_metrics.py] *)

(** [str(datetime.datetime.now().timestamp()).split('.')[0]]: the clock is
    read in microseconds since the epoch; the text before the decimal point
    of the float is the number of whole seconds (for clock values below
    1e16 seconds, which Python prints in positional notation). *)
Definition timestamp_whole_seconds (now_us : N) : string :=
  pretty (now_us `div` 1000000)%N.

Section Script.
Context `{Collaborators}.

(** Lines 26-33. *)
Definition create_working_dir (now_us : N) : M string :=
  let working_dir := "metrics-" +:+ timestamp_whole_seconds now_us in
  call (Mkdir working_dir) (os_mkdir working_dir) ;;;
  ret working_dir.

(** Lines 36-52. *)
Definition generate_config_file (working_dir ref_prefix test_dsm test_cls test_mtl test_dtm : string)
  : M string :=
  contents <- call_pure GetTemplate config_get_template ;;
  contents <- call_pure (PopulateTemplate contents ref_prefix test_dsm test_cls test_mtl test_dtm)
                (config_populate_template contents ref_prefix test_dsm test_cls test_mtl test_dtm) ;;
  name <- call_pure (GetFilename test_dsm test_cls) (config_get_filename test_dsm test_cls) ;;
  let config_filename := join working_dir name in
  call (WriteFile config_filename contents) (open_write config_filename contents) ;;;
  ret config_filename.

(** The parsed command line ([argparse.Namespace], line 94). *)
Record Args := {
  output_dir : option string;
  ref_dir : string;
  ref_prefix : string;
  dsm : string;
  cls : string;
  mtl : option string;
  dtm : option string
}.

(** Lines 96-104 of [main]: the working directory. *)
Definition prepare_working_dir (now_us : N) (args : Args) : M string :=
  match args.(output_dir) with
  | Some d =>
      if truthy d then
        present <- (fun fs => (Returned (os_path_exists d fs), fs, [PathExists d])) ;;
        (if negb present then call (Makedirs d) (os_makedirs d) else ret tt) ;;;
        ret d
      else create_working_dir now_us
  | None => create_working_dir now_us
  end.

(** Lines 116-125 of [main], once for [--mtl] and once for [--dtm]. *)
Definition stage_optional (working_dir : string) (arg : option string) : M string :=
  match arg with
  | Some a =>
      let test := join working_dir (basename a) in
      call (Copyfile a test) (shutil_copyfile a test) ;;;
      ret test
  | None => ret EmptyString
  end.

(** Lines 108-125 of [main]: staging the test images. *)
Definition stage_inputs (args : Args) (working_dir : string) : M (string * string * string * string) :=
  let test_dsm := join working_dir (basename args.(dsm)) in
  let test_cls := join working_dir (basename args.(cls)) in
  call (Copyfile args.(dsm) test_dsm) (shutil_copyfile args.(dsm) test_dsm) ;;;
  call (Copyfile args.(cls) test_cls) (shutil_copyfile args.(cls) test_cls) ;;;
  test_mtl <- stage_optional working_dir args.(mtl) ;;
  test_dtm <- stage_optional working_dir args.(dtm) ;;
  ret (test_dsm, test_cls, test_mtl, test_dtm).

(** Lines 134-140 of [main]: the reference coordinate system. *)
Definition normalize_coordinates (ref_dsm test_dsm test_cls test_mtl test_dtm : string) : M unit :=
  ref_proj4 <- (fun fs => match get_coordinate_system ref_dsm fs with
                          | r => (r, fs, [GetCoordinateSystem ref_dsm r])
                          end) ;;
  call (ConvertCoordinateSystem test_dsm ref_proj4) (convert_coordinate_system test_dsm ref_proj4) ;;;
  call (ConvertCoordinateSystem test_cls ref_proj4) (convert_coordinate_system test_cls ref_proj4) ;;;
  (if truthy test_mtl
   then call (ConvertCoordinateSystem test_mtl ref_proj4) (convert_coordinate_system test_mtl ref_proj4)
   else ret tt) ;;;
  (if truthy test_dtm
   then call (ConvertCoordinateSystem test_dtm ref_proj4) (convert_coordinate_system test_dtm ref_proj4)
   else ret tt).

(** The argument vector of line 148. *)
Definition engine_argv (config_filename ref_dir working_dir : string) : list string :=
  ["--config"; config_filename; "--reference"; ref_dir; "--test"; working_dir; "--output"; working_dir].

(** Lines 96-153: [main], after the command line is parsed. *)
Definition main (now_us : N) (args : Args) : M unit :=
  working_dir <- prepare_working_dir now_us args ;;
  let ref_dsm := join args.(ref_dir) (args.(ref_prefix) +:+ "-DSM.tif") in
  staged <- stage_inputs args working_dir ;;
  let '(test_dsm, test_cls, test_mtl, test_dtm) := staged in
  config_filename <- generate_config_file working_dir args.(ref_prefix)
                       test_dsm test_cls test_mtl test_dtm ;;
  normalize_coordinates ref_dsm test_dsm test_cls test_mtl test_dtm ;;;
  call (ConvertFloat32 test_dsm) (convert_float32 test_dsm) ;;;
  call (Core3dMetrics (engine_argv config_filename args.(ref_dir) working_dir))
    (core3dmetrics_main (engine_argv config_filename args.(ref_dir) working_dir)).

End Script.

(** ** A reference implementation of the imported modules *)

(** Replace every occurrence of a non-empty [pat] in [s] by [rep]; [skip]
    counts the characters of a match still to be dropped. *)
Fixpoint replace_go (pat rep : string) (skip : nat) (s : string) : string :=
  match s with
  | EmptyString => EmptyString
  | String c r =>
      match skip with
      | S n => replace_go pat rep n r
      | O =>
          if String.prefix pat s then rep +:+ replace_go pat rep (String.length pat - 1) r
          else String c (replace_go pat rep 0 r)
      end
  end.

Definition replace (pat rep s : string) : string := replace_go pat rep 0 s.

Definition unreadable {A} : outcome A := Raised (ExternalError "UnreadableRasterError").

(** Replace the raster stored at [p] by [f] of it; the file stays a file. *)
Definition update_raster (p : string) (f : raster -> outcome raster) (fs : gmap key node)
  : outcome unit * gmap key node :=
  match stat p fs with
  | Some (File (RasterData r)) =>
      match f r with
      | Returned r' => (Returned tt, <[resolve p := File (RasterData r')]> fs)
      | Raised e => (Raised e, fs)
      end
  | _ => (unreadable, fs)
  end.

(** Modelled from the spec: the modules [danesfield.metrics.config],
    [danesfield.metrics.coordinate_system], [danesfield.metrics.datatype]
    and the [core3dmetrics] engine are missing from the sources.  The config
    builder substitutes placeholders of a template; the resolver reads the
    CRS of a readable raster; the reprojector and the pixel type normaliser
    overwrite the raster at the given path; the engine reads its config and
    writes a report under its output directory. *)
Definition reference_collaborators : Collaborators := {|
  config_get_template :=
    Returned "ref=$REF dsm=$DSM cls=$CLS mtl=$MTL dtm=$DTM";
  config_populate_template contents ref_prefix test_dsm test_cls test_mtl test_dtm :=
    Returned (replace "$DTM" test_dtm (replace "$MTL" test_mtl (replace "$CLS" test_cls
               (replace "$DSM" test_dsm (replace "$REF" ref_prefix contents)))));
  config_get_filename test_dsm test_cls :=
    Returned ("config-" +:+ replace "/" "_" test_dsm +:+ "+" +:+ replace "/" "_" test_cls +:+ ".config");
  get_coordinate_system p fs :=
    match stat p fs with
    | Some (File (RasterData r)) =>
        match raster_crs r with
        | Some c => Returned c
        | None => unreadable
        end
    | _ => unreadable
    end;
  convert_coordinate_system p proj4 :=
    update_raster p (fun r =>
      match raster_crs r with
      | Some _ => Returned (Raster (Some proj4) (raster_dtype r) (raster_pixels r))
      | None => Raised (ExternalError "ReprojectionError")
      end);
  convert_float32 p :=
    update_raster p (fun r => Returned (Raster (raster_crs r) Float32 (raster_pixels r)));
  core3dmetrics_main argv fs :=
    match argv with
    | [k1; c; k2; _; k3; _; k4; o] =>
        if bool_decide ([k1; k2; k3; k4] = ["--config"; "--reference"; "--test"; "--output"]) then
          match stat c fs with
          | Some (File _) => write_node (join o "metrics.json") (Bytes "{}") fs
          | _ => (Raised (ExternalError "EngineInvocationError"), fs)
          end
        else (Raised (ExternalError "EngineInvocationError"), fs)
    | _ => (Raised (ExternalError "EngineInvocationError"), fs)
    end
|}.

(** ** Sample inputs *)

Definition utm17 : string := "+proj=utm +zone=17 +datum=WGS84".
Definition wgs84 : string := "+proj=longlat +datum=WGS84".

Definition sample_fs : gmap key node :=
  list_to_map [
    (["ref"], Dir);
    (["ref"; "AOI_1-DSM.tif"], File (RasterData (Raster (Some utm17) Float32 "ref-dsm")));
    (["in"], Dir);
    (["in"; "dsm.tif"], File (RasterData (Raster (Some wgs84) Float64 "dsm")));
    (["in"; "cls.tif"], File (RasterData (Raster (Some wgs84) UInt8 "cls")));
    (["in"; "mtl.tif"], File (RasterData (Raster (Some wgs84) UInt8 "mtl")));
    (["out"], Dir);
    (["out"; "notes.txt"], File (Bytes "keep me"))
  ].

Definition sample_args : Args :=
  {| output_dir := Some "out"; ref_dir := "ref"; ref_prefix := "AOI_1";
     dsm := "in/dsm.tif"; cls := "in/cls.tif"; mtl := None; dtm := None |}.

Definition sample_now : N := 1700000000123456.




(** The DSM and the CLS have the same base name in two directories. *)
Definition alias_fs : gmap key node :=
  list_to_map [
    (["a"], Dir);
    (["a"; "tile.tif"], File (RasterData (Raster (Some wgs84) Float64 "dsm")));
    (["b"], Dir);
    (["b"; "tile.tif"], File (RasterData (Raster (Some wgs84) UInt8 "cls")));
    (["out"], Dir)
  ].

Definition alias_args : Args :=
  {| output_dir := Some "out"; ref_dir := "ref"; ref_prefix := "AOI_1";
     dsm := "a/tile.tif"; cls := "b/tile.tif"; mtl := None; dtm := None |}.

(** A run with every optional input, into a directory still to be made. *)
Definition full_args : Args :=
  {| output_dir := Some "runs/today"; ref_dir := "ref"; ref_prefix := "AOI_1";
     dsm := "in/dsm.tif"; cls := "in/cls.tif"; mtl := Some "in/mtl.tif"; dtm := None |}.

(** A run without output directory. *)
Definition fresh_args : Args :=
  {| output_dir := None; ref_dir := "ref"; ref_prefix := "AOI_1";
     dsm := "in/dsm.tif"; cls := "in/cls.tif"; mtl := None; dtm := None |}.

(** [main] with the reference implementation of the imported modules. *)
Definition reference_main : N -> Args -> M unit := @main reference_collaborators.

(** ** Vocabulary of the statements *)

(** The name [main] uses for the working directory (lines 97-104). *)
Definition working_dir_name (now_us : N) (args : Args) : string :=
  match args.(output_dir) with
  | Some d => if truthy d then d else "metrics-" +:+ timestamp_whole_seconds now_us
  | None => "metrics-" +:+ timestamp_whole_seconds now_us
  end.

(** Where a candidate file is staged: the working directory joined with the
    base name of the file. *)
Definition staged (working_dir a : string) : string := join working_dir (basename a).

(** The optional inputs that were supplied. *)
Definition supplied (o : option string) : list string :=
  match o with
  | Some a => [a]
  | None => []
  end.

(** The candidate files of a run, in the order [main] handles them. *)
Definition candidates (args : Args) : list string :=
  [args.(dsm); args.(cls)] ++ supplied args.(mtl) ++ supplied args.(dtm).

Definition planned_copies (working_dir : string) (args : Args) : list event :=
  map (fun a => Copyfile a (staged working_dir a)) (candidates args).

Definition planned_reprojections (working_dir proj4 : string) (args : Args) : list event :=
  map (fun a => ConvertCoordinateSystem (staged working_dir a) proj4) (candidates args).

Definition reference_dsm (args : Args) : string :=
  join args.(ref_dir) (args.(ref_prefix) +:+ "-DSM.tif").

(** The step of the pipeline a call belongs to. *)
Definition phase (e : event) : nat :=
  match e with
  | PathExists _ | Makedirs _ | Mkdir _ => 0
  | Copyfile _ _ => 1
  | GetTemplate | PopulateTemplate _ _ _ _ _ _ | GetFilename _ _ | WriteFile _ _ => 2
  | GetCoordinateSystem _ _ | ConvertCoordinateSystem _ _ => 3
  | ConvertFloat32 _ => 4
  | Core3dMetrics _ => 5
  end.

Definition is_copy (e : event) : bool :=
  match e with Copyfile _ _ => true | _ => false end.
Definition is_reprojection (e : event) : bool :=
  match e with ConvertCoordinateSystem _ _ => true | _ => false end.
Definition is_float32 (e : event) : bool :=
  match e with ConvertFloat32 _ => true | _ => false end.
Definition is_engine (e : event) : bool :=
  match e with Core3dMetrics _ => true | _ => false end.
Definition is_write (e : event) : bool :=
  match e with WriteFile _ _ => true | _ => false end.
Definition is_populate (e : event) : bool :=
  match e with PopulateTemplate _ _ _ _ _ _ => true | _ => false end.

(** The path a mutating raster call is applied to. *)
Definition mutated_path (e : event) : option string :=
  match e with
  | ConvertCoordinateSystem p _ => Some p
  | ConvertFloat32 p => Some p
  | _ => None
  end.

(** [k] lies in the directory [d] (or is [d] itself). *)
Definition inside (d : string) (k : key) : Prop := resolve d `prefix_of` k.

(** Relations between the file system before and after a computation:
    every entry is still there unchanged; no entry has disappeared; the
    entries outside the directory [d] are unchanged. *)
Definition keeps_all (fs fs' : gmap key node) : Prop :=
  forall k n, fs !! k = Some n -> fs' !! k = Some n.






(** The answers of the CRS resolver, with the path each was asked for. *)
Definition crs_answers (l : list event) : list (string * outcome string) :=
  flat_map (fun e => match e with
                     | GetCoordinateSystem p a => [(p, a)]
                     | _ => []
                     end) l.

(** The staged path recorded for an optional input. *)
Definition staged_opt (working_dir : string) (o : option string) : string :=
  match o with
  | Some a => staged working_dir a
  | None => EmptyString
  end.

(** Every run of [m] relates the file system it starts from to the one
    it leaves behind by [R]. *)
Definition frames {A : Type} (R : relation (gmap key node)) (m : M A) : Prop :=
  forall fs, R fs (final_fs (m fs)).

(** A path without separator: it is its only segment. *)
Definition no_sep (s : string) : Prop := split_sep s = [s].

(** No regular file appears: every file of [fs'] was there in [fs]. *)
Definition creates_no_file (fs fs' : gmap key node) : Prop :=
  forall k c, fs' !! k = Some (File c) -> fs !! k = Some (File c).

(** The copies of staging as one loop over the candidate files: it stops
    at the first copy that raises. *)
Fixpoint copy_all (working_dir : string) (files : list string) (fs : gmap key node)
  : outcome unit * gmap key node :=
  match files with
  | [] => (Returned tt, fs)
  | a :: rest =>
      match shutil_copyfile a (staged working_dir a) fs with
      | (Returned _, fs1) => copy_all working_dir rest fs1
      | (Raised e, fs1) => (Raised e, fs1)
      end
  end.

(** ** [argparse]: the command line (lines 57-94 of [main])

    The parser is declared with seven options, each a long option string
    that takes one argument ([type=str], [nargs=None]); [--ref-dir],
    [--ref-prefix], [--dsm] and [--cls] are required.  [ArgumentParser]
    adds [-h/--help] by itself and accepts unambiguous abbreviations of
    long options.  [parse_args] is embedded as CPython 3.11 implements it
    for such a parser: the first loop of [_parse_known_args] classifies
    every argument string, the second loop consumes them.  Every call of
    [parser.error] ends in [sys.exit(2)], the help action in
    [sys.exit(0)]. *)

(** The attributes of the namespace, one per [add_argument] call. *)
Inductive dest := Output_dir | Ref_dir | Ref_prefix | Dsm | Cls | Mtl | Dtm.

#[global] Instance dest_eq_dec : EqDecision dest.
Proof. solve_decision. Defined.

(** The actions of the parser: the help action, and one store action per
    option with its [required] flag. *)
Inductive action :=
  | HelpAction
  | StoreAction (d : dest) (required : bool).

(** [parser._option_string_actions], in registration order. *)
Definition option_string_actions : list (string * action) :=
  [("-h", HelpAction);
   ("--help", HelpAction);
   ("--output-dir", StoreAction Output_dir false);
   ("--ref-dir", StoreAction Ref_dir true);
   ("--ref-prefix", StoreAction Ref_prefix true);
   ("--dsm", StoreAction Dsm true);
   ("--cls", StoreAction Cls true);
   ("--mtl", StoreAction Mtl false);
   ("--dtm", StoreAction Dtm false)].

Definition find_action (option_string : string) : option action :=
  snd <$> List.find (fun x => String.eqb (fst x) option_string) option_string_actions.

(** [s.split('=', 1)] when [s] holds an equals sign. *)
Fixpoint split_equals (s : string) : option (string * string) :=
  match s with
  | EmptyString => None
  | String c r =>
      if Ascii.eqb c "=" then Some (EmptyString, r)
      else match split_equals r with
           | Some (a, b) => Some (String c a, b)
           | None => None
           end
  end.

(** [c in s] *)
Fixpoint contains (c : ascii) (s : string) : bool :=
  match s with
  | EmptyString => false
  | String x r => Ascii.eqb x c || contains c r
  end.

Definition is_digit (c : ascii) : bool :=
  (48 <=? N_of_ascii c)%N && (N_of_ascii c <=? 57)%N.

Fixpoint all_digits (s : string) : bool :=
  match s with
  | EmptyString => true
  | String c r => is_digit c && all_digits r
  end.

(** The regular expression [\d*\.\d+], on the whole of [s]. *)
Fixpoint decimal_digits (s : string) : bool :=
  match s with
  | EmptyString => false
  | String c r =>
      if Ascii.eqb c "." then truthy r && all_digits r
      else is_digit c && decimal_digits r
  end.

(** [$] also matches before one final newline. *)
Fixpoint chomp (s : string) : string :=
  match s with
  | EmptyString => EmptyString
  | String c EmptyString => if Ascii.eqb c "010" then EmptyString else s
  | String c r => String c (chomp r)
  end.

(** [parser._negative_number_matcher]: [^-\d+$|^-\d*\.\d+$]. *)
Definition negative_number (s : string) : bool :=
  match chomp s with
  | String c r => Ascii.eqb c "-" && ((truthy r && all_digits r) || decimal_digits r)
  | EmptyString => false
  end.

(** A character outside ASCII.  [\d] also matches the decimal digits of
    other scripts, which a string of bytes does not tell apart: an
    argument string with such a character that reaches the number test
    is left out of the model. *)
Fixpoint has_non_ascii (s : string) : bool :=
  match s with
  | EmptyString => false
  | String c r => (128 <=? N_of_ascii c)%N || has_non_ascii r
  end.

(** [parser._get_option_tuples(option_string)], called on strings of at
    least two characters that start with a dash. *)
Definition get_option_tuples (option_string : string) : list (action * string * option string) :=
  match option_string with
  | String c0 (String c1 tail) =>
      if Ascii.eqb c1 "-" then
        let '(option_prefix, explicit_arg) :=
          match split_equals option_string with
          | Some (a, b) => (a, Some b)
          | None => (option_string, None)
          end in
        flat_map (fun x => if String.prefix option_prefix (fst x)
                           then [(snd x, fst x, explicit_arg)] else [])
                 option_string_actions
      else
        let short_option_prefix := String c0 (String c1 EmptyString) in
        flat_map (fun x => if String.eqb (fst x) short_option_prefix
                           then [(snd x, fst x, Some tail)]
                           else if String.prefix option_string (fst x)
                           then [(snd x, fst x, None)] else [])
                 option_string_actions
  | _ => []
  end.

(** What [parser._parse_optional] answers for one argument string:
    [None] (an argument), a tuple (an option string, known or not, with
    the argument glued to it), or a call of [parser.error]. *)
Inductive parsed_optional :=
  | NotOptional
  | OptionTuple (a : option action) (option_string : string) (explicit_arg : option string)
  | AmbiguousOption
  | NotModelled.

Definition parse_optional (arg_string : string) : parsed_optional :=
  if negb (truthy arg_string) then NotOptional
  else if negb (String.prefix "-" arg_string) then NotOptional
  else
    match find_action arg_string with
    | Some a => OptionTuple (Some a) arg_string None
    | None =>
        if (String.length arg_string =? 1)%nat then NotOptional
        else
          match (match split_equals arg_string with
                 | Some (option_string, explicit_arg) =>
                     match find_action option_string with
                     | Some a => Some (OptionTuple (Some a) option_string (Some explicit_arg))
                     | None => None
                     end
                 | None => None
                 end) with
          | Some t => t
          | None =>
              match get_option_tuples arg_string with
              | [(a, option_string, explicit_arg)] => OptionTuple (Some a) option_string explicit_arg
              | _ :: _ :: _ => AmbiguousOption
              | [] =>
                  if has_non_ascii arg_string then NotModelled
                  else if negative_number arg_string then NotOptional
                  else if contains " " arg_string then NotOptional
                  else OptionTuple None arg_string None
              end
          end
    end.

(** One letter of [arg_strings_pattern]: [A], [-] or [O], the last with
    its option tuple. *)
Inductive letter :=
  | LetterA
  | LetterDash
  | LetterO (a : option action) (option_string : string) (explicit_arg : option string).

Inductive scanned :=
  | Pattern (parts : list (string * letter))
  | ScanError
  | ScanNotModelled.

(** The first loop of [parser._parse_known_args]: every argument string
    with its letter; all strings after the first [--] are arguments. *)
Fixpoint scan (arg_strings : list string) : scanned :=
  match arg_strings with
  | [] => Pattern []
  | arg_string :: rest =>
      if String.eqb arg_string "--" then
        Pattern ((arg_string, LetterDash) :: map (fun s => (s, LetterA)) rest)
      else
        match parse_optional arg_string with
        | AmbiguousOption => ScanError
        | NotModelled => ScanNotModelled
        | NotOptional =>
            match scan rest with
            | Pattern parts => Pattern ((arg_string, LetterA) :: parts)
            | r => r
            end
        | OptionTuple a option_string explicit_arg =>
            match scan rest with
            | Pattern parts => Pattern ((arg_string, LetterO a option_string explicit_arg) :: parts)
            | r => r
            end
        end
  end.

(** A value stored in the namespace: a string, or the empty list that
    [parser._get_values] builds when the argument glued to an option is
    [--]. *)
Inductive value :=
  | Str (s : string)
  | EmptyList.

Definition namespace := dest -> option value.

Definition setattr (ns : namespace) (d : dest) (v : value) : namespace :=
  fun d' => if decide (d' = d) then Some v else ns d'.

(** The namespace before parsing: no attribute is set ([default=None]). *)
Definition defaults : namespace := fun _ => None.

(** How parsing ends: a result, [sys.exit(status)], or a command line
    that this model does not cover. *)
Inductive parse_result (T : Type) :=
  | Parsed (t : T)
  | SystemExit (status : N)
  | OutOfModel.
Arguments Parsed {T} t.
Arguments SystemExit {T} status.
Arguments OutOfModel {T}.

(** The tail of a single-dash option string that takes no argument is
    read as more single-dash options: [-hh] is [-h -h]. *)
Fixpoint all_help (explicit_arg : string) : bool :=
  match explicit_arg with
  | EmptyString => true
  | String c r => Ascii.eqb c "h" && all_help r
  end.

(** The end of [_parse_known_args] and of [parse_args]: an error for the
    required options that were not seen, then for the extras. *)
Definition finish (ns : namespace) (extras : list string) : parse_result namespace :=
  let missing :=
    List.filter (fun x => match snd x with
                          | StoreAction d true => match ns d with Some _ => false | None => true end
                          | _ => false
                          end) option_string_actions in
  match missing, extras with
  | [], [] => Parsed ns
  | _, _ => SystemExit 2
  end.

(** The second loop of [parser._parse_known_args] for a parser without
    positional arguments: an argument that no option takes is an extra;
    an option takes the argument glued to it, or else the next string
    when that is an argument. *)
Fixpoint consume (parts : list (string * letter)) (ns : namespace) (extras : list string)
  : parse_result namespace :=
  match parts with
  | [] => finish ns extras
  | (arg_string, l) :: rest =>
      match l with
      | LetterA | LetterDash => consume rest ns (extras ++ [arg_string])
      | LetterO None _ _ => consume rest ns (extras ++ [arg_string])
      | LetterO (Some HelpAction) option_string None => SystemExit 0
      | LetterO (Some HelpAction) option_string (Some explicit_arg) =>
          if String.prefix "--" option_string || negb (truthy explicit_arg) then SystemExit 2
          else if all_help explicit_arg then SystemExit 0
          else SystemExit 2
      | LetterO (Some (StoreAction d _)) _ (Some explicit_arg) =>
          consume rest
            (setattr ns d (if String.eqb explicit_arg "--" then EmptyList else Str explicit_arg))
            extras
      | LetterO (Some (StoreAction d _)) _ None =>
          match rest with
          | (v, LetterA) :: rest' => consume rest' (setattr ns d (Str v)) extras
          | _ => SystemExit 2
          end
      end
  end.

Definition as_str (v : option value) : option string :=
  match v with
  | Some (Str s) => Some s
  | _ => None
  end.

Definition holds_list (ns : namespace) : bool :=
  existsb (fun d => match ns d with Some EmptyList => true | _ => false end)
    [Output_dir; Ref_dir; Ref_prefix; Dsm; Cls; Mtl; Dtm].

(** [parser.parse_args(args)] (line 94).  A namespace that holds a list
    is no [Args]: the script goes on with it and fails on the list
    later; that is left out of the model. *)
Definition parse_args (args : list string) : parse_result Args :=
  match scan args with
  | ScanError => SystemExit 2
  | ScanNotModelled => OutOfModel
  | Pattern parts =>
      match consume parts defaults [] with
      | SystemExit status => SystemExit status
      | OutOfModel => OutOfModel
      | Parsed ns =>
          match as_str (ns Ref_dir), as_str (ns Ref_prefix), as_str (ns Dsm), as_str (ns Cls) with
          | Some r, Some p, Some d, Some c =>
              if holds_list ns then OutOfModel
              else Parsed {| output_dir := as_str (ns Output_dir); ref_dir := r; ref_prefix := p;
                             dsm := d; cls := c; mtl := as_str (ns Mtl); dtm := as_str (ns Dtm) |}
          | _, _, _, _ => OutOfModel
          end
      end
  end.

(** How a call of the script's [main] ends: [sys.exit] from the parser
    before anything was called, or the run of the pipeline. *)
Inductive run :=
  | Exits (status : N)
  | Runs (r : outcome unit * gmap key node * list event)
  | NotCovered.

Section Entry.
Context `{Collaborators}.

(** Lines 55-153: [main(args)] on the argument strings. *)
Definition main_argv (now_us : N) (args : list string) (fs : gmap key node) : run :=
  match parse_args args with
  | Parsed a => Runs (main now_us a fs)
  | SystemExit status => Exits status
  | OutOfModel => NotCovered
  end.

End Entry.

(** ** Vocabulary of the further properties *)

(** The option string of an attribute, and whether it is required. *)
Definition option_string (d : dest) : string :=
  match d with
  | Output_dir => "--output-dir"
  | Ref_dir => "--ref-dir"
  | Ref_prefix => "--ref-prefix"
  | Dsm => "--dsm"
  | Cls => "--cls"
  | Mtl => "--mtl"
  | Dtm => "--dtm"
  end.

Definition is_required (d : dest) : bool :=
  match d with
  | Ref_dir | Ref_prefix | Dsm | Cls => true
  | Output_dir | Mtl | Dtm => false
  end.

(** A command line made of options, each followed by its value. *)
Definition words (pairs : list (dest * string)) : list string :=
  flat_map (fun x => [option_string (fst x); snd x]) pairs.

(** The value given last for [d]. *)
Definition given (d : dest) (pairs : list (dest * string)) : option string :=
  foldl (fun acc x => if decide (fst x = d) then Some (snd x) else acc) None pairs.

(** A word that the parser reads as the value of the option before it. *)
Definition argument_like (v : string) : Prop :=
  v <> "--" /\ parse_optional v = NotOptional.

(** The command line that spells out [a]. *)
Definition command_line (a : Args) : list string :=
  words (match output_dir a with Some d => [(Output_dir, d)] | None => [] end ++
         [(Ref_dir, ref_dir a); (Ref_prefix, ref_prefix a); (Dsm, dsm a); (Cls, cls a)] ++
         match mtl a with Some m => [(Mtl, m)] | None => [] end ++
         match dtm a with Some t => [(Dtm, t)] | None => [] end).

(** The pattern of [words pairs]. *)
Definition parts_of (pairs : list (dest * string)) : list (string * letter) :=
  flat_map (fun x => [(option_string (fst x),
                       LetterO (Some (StoreAction (fst x) (is_required (fst x))))
                         (option_string (fst x)) None);
                      (snd x, LetterA)]) pairs.

(** The namespace after storing the values of [pairs] in order. *)
Definition store (ns : namespace) (pairs : list (dest * string)) : namespace :=
  foldl (fun ns x => setattr ns (fst x) (Str (snd x))) ns pairs.

(** The shortest spelling of an option that the parser still tells apart
    from the other options. *)
Definition shortest (d : dest) : string :=
  match d with
  | Output_dir => "--o"
  | Ref_dir => "--ref-d"
  | Ref_prefix => "--ref-p"
  | Dsm => "--ds"
  | Cls => "--c"
  | Mtl => "--m"
  | Dtm => "--dt"
  end.


(** All prefixes of a string, shortest first. *)
Fixpoint prefixes (s : string) : list string :=
  match s with
  | EmptyString => [EmptyString]
  | String c r => EmptyString :: map (String c) (prefixes r)
  end.

(** The option strings that start with [p]. *)
Definition matching (p : string) : list string :=
  List.filter (String.prefix p) (map fst option_string_actions).

(** A part of the pattern that stores to [d]. *)
Definition stores_to (d : dest) (x : string * letter) : Prop :=
  exists r os e, snd x = LetterO (Some (StoreAction d r)) os e.


(** A part of the pattern that no option takes: the [--] separator, or
    an option string that the parser does not know. *)
Definition unusable (x : string * letter) : Prop :=
  snd x = LetterDash \/ exists os e, snd x = LetterO None os e.

(** The end of [parse_args], after the two loops: the namespace read as
    the arguments of [main]. *)
Definition to_args (r : parse_result namespace) : parse_result Args :=
  match r with
  | SystemExit status => SystemExit status
  | OutOfModel => OutOfModel
  | Parsed ns =>
      match as_str (ns Ref_dir), as_str (ns Ref_prefix), as_str (ns Dsm), as_str (ns Cls) with
      | Some r, Some p, Some d, Some c =>
          if holds_list ns then OutOfModel
          else Parsed {| output_dir := as_str (ns Output_dir); ref_dir := r; ref_prefix := p;
                         dsm := d; cls := c; mtl := as_str (ns Mtl); dtm := as_str (ns Dtm) |}
      | _, _, _, _ => OutOfModel
      end
  end.

(** The arguments that a list of option and value pairs stands for: the
    last value of each option, and exit status 2 when a required option
    has none. *)
Definition parsed_pairs (pairs : list (dest * string)) : parse_result Args :=
  match given Ref_dir pairs, given Ref_prefix pairs, given Dsm pairs, given Cls pairs with
  | Some r, Some p, Some d, Some c =>
      Parsed {| output_dir := given Output_dir pairs; ref_dir := r; ref_prefix := p;
                dsm := d; cls := c; mtl := given Mtl pairs; dtm := given Dtm pairs |}
  | _, _, _, _ => SystemExit 2
  end.

(** What a candidate needs for its copy to go through: it is a regular
    file outside the working directory, no directory sits at its staged
    path, and the directory of the staged path exists. *)
Definition copyable (wd a : string) (fs : gmap key node) : Prop :=
  (exists c, stat a fs = Some (File c)) /\ ~ inside wd (resolve a) /\
  lookup_node fs (resolve (staged wd a)) <> Some Dir /\
  lookup_node fs (parent (resolve (staged wd a))) = Some Dir.

(** The entry at [k] after the copies of [l], where [read a] is the entry
    of the source [a]: the source of the last candidate staged at [k],
    or what was there. *)
Definition written (wd : string) (read : string -> option node) (k : key)
  (acc : option node) (l : list string) : option node :=
  foldl (fun acc a => if decide (resolve (staged wd a) = k) then read a else acc) acc l.



Definition no_reference_args : Args :=
  {| output_dir := Some "out"; ref_dir := "ref"; ref_prefix := "AOI_9";
     dsm := "in/dsm.tif"; cls := "in/cls.tif"; mtl := None; dtm := None |}.

(** A second run on the staged DSM of a first run. *)
Definition rerun_args : Args :=
  {| output_dir := Some "out"; ref_dir := "ref"; ref_prefix := "AOI_1";
     dsm := "out/dsm.tif"; cls := "in/cls.tif"; mtl := None; dtm := None |}.

Definition rerun_fs : gmap key node :=
  final_fs (reference_main sample_now sample_args sample_fs).

(** A CLS input that does not exist. *)
Definition missing_cls_args : Args :=
  {| output_dir := Some "out"; ref_dir := "ref"; ref_prefix := "AOI_1";
     dsm := "in/dsm.tif"; cls := "in/missing.tif"; mtl := None; dtm := None |}.

(** Options out of order, with [--dsm] given twice. *)
Definition shuffled_pairs : list (dest * string) :=
  [(Dsm, "a.tif"); (Cls, "in/cls.tif"); (Ref_prefix, "AOI_1"); (Dsm, "in/dsm.tif");
   (Ref_dir, "ref")].

(** The options of a run whose DSM is still to be named. *)
Definition dash_pairs : list (dest * string) :=
  [(Ref_dir, "ref"); (Ref_prefix, "AOI_1"); (Cls, "in/cls.tif")].

(** * Properties *)

(** ** Paths *)

Lemma truthy_empty : truthy EmptyString = false.
Proof. reflexivity. Qed.

Lemma truthy_app a b : truthy a = true -> truthy (a +:+ b) = true.
Proof. by destruct a. Qed.

Lemma startswith_sep_truthy b : startswith_sep b = true -> truthy b = true.
Proof. by destruct b. Qed.

Lemma join_truthy a b : truthy a = true -> truthy (join a b) = true.
Proof.
  intros Ha. unfold join.
  destruct (startswith_sep b) eqn:Hb; [by apply startswith_sep_truthy|].
  destruct (negb (truthy a) || endswith_sep a); by apply truthy_app.
Qed.

Lemma working_dir_name_truthy now args : truthy (working_dir_name now args) = true.
Proof.
  unfold working_dir_name.
  destruct (output_dir args) as [d|]; [destruct (truthy d) eqn:Hd|]; done.
Qed.

Lemma append_nil (b : string) : EmptyString +:+ b = b.
Proof. reflexivity. Qed.

Lemma append_cons x (a b : string) : String x a +:+ b = String x (a +:+ b).
Proof. reflexivity. Qed.

Lemma split_sep_nonempty p : split_sep p <> [].
Proof.
  destruct p as [|c r]; simpl; [done|].
  destruct (Ascii.eqb c sep); [done|]. by destruct (split_sep r).
Qed.

Lemma split_sep_app a b : split_sep (a +:+ "/" +:+ b) = split_sep a ++ split_sep b.
Proof.
  induction a as [|c r IH]; [done|].
  rewrite append_cons. simpl.
  destruct (Ascii.eqb c sep); [by rewrite IH|].
  rewrite IH. pose proof (split_sep_nonempty r). by destruct (split_sep r).
Qed.

Lemma endswith_sep_inv a : endswith_sep a = true -> exists a', a = a' +:+ "/".
Proof.
  induction a as [|c r IH]; simpl; [done|].
  destruct r as [|c' r'].
  - intros Hc. apply Ascii.eqb_eq in Hc as ->. by exists EmptyString.
  - intros Hr. destruct (IH Hr) as [a' Ha']. exists (String c a'). by rewrite Ha'.
Qed.

Lemma startswith_sep_app a b : truthy a = true -> startswith_sep (a +:+ b) = startswith_sep a.
Proof. by destruct a. Qed.

Lemma string_app_assoc (a b c : string) : (a +:+ b) +:+ c = a +:+ (b +:+ c).
Proof. induction a as [|x a IH]; [done|]. by rewrite !append_cons, IH. Qed.


Lemma components_app a b : components (a +:+ "/" +:+ b) = components a ++ components b.
Proof. unfold components. by rewrite split_sep_app, filter_app. Qed.

Lemma components_trailing a : components (a +:+ "/") = components a.
Proof.
  pose proof (components_app a EmptyString) as Hc.
  change (components EmptyString) with (@nil string) in Hc.
  by rewrite app_nil_r in Hc.
Qed.

Lemma resolve_join a b :
  truthy a = true -> startswith_sep b = false -> resolve (join a b) = resolve a ++ components b.
Proof.
  intros Ha Hb. unfold join, resolve. rewrite Hb, Ha. simpl negb. simpl orb.
  fold (components a). fold (components b).
  destruct (endswith_sep a) eqn:He.
  - destruct (endswith_sep_inv a He) as [a' ->].
    fold (components (a' +:+ "/")).
    rewrite string_app_assoc. fold (components (a' +:+ "/" +:+ b)).
    rewrite components_app, components_trailing.
    rewrite <- (string_app_assoc a' "/" b), !startswith_sep_app by done.
    by rewrite app_assoc.
  - fold (components (a +:+ "/" +:+ b)).
    rewrite components_app, startswith_sep_app by done. by rewrite app_assoc.
Qed.

Lemma split_sep_segments p s : In s (split_sep p) -> startswith_sep s = false.
Proof.
  revert s. induction p as [|c r IH]; simpl; intros s.
  - by intros [<-|[]].
  - destruct (Ascii.eqb c sep) eqn:Hc.
    + intros [<-|Hs]; [done|by apply IH].
    + pose proof (split_sep_nonempty r).
      destruct (split_sep r) as [|s0 ss]; [done|].
      intros [<-|Hs]; [simpl; done|apply IH; by right].
Qed.

Lemma basename_relative p : startswith_sep (basename p) = false.
Proof.
  unfold basename. apply (split_sep_segments p).
  pose proof (split_sep_nonempty p).
  destruct (exists_last H) as [l [x ->]].
  rewrite last_last. apply in_app_iff. right. by left.
Qed.

Lemma staged_inside wd a : truthy wd = true -> inside wd (resolve (staged wd a)).
Proof.
  intros Hwd. unfold inside, staged.
  rewrite resolve_join by auto using basename_relative. by apply prefix_app_r.
Qed.



(** ** The file system primitives *)

Lemma lookup_node_None fs k : lookup_node fs k = None -> is_anchor k = false /\ fs !! k = None.
Proof. unfold lookup_node. by destruct (is_anchor k). Qed.

Lemma lookup_node_insert fs k n : is_anchor k = false -> lookup_node (<[k := n]> fs) k = Some n.
Proof. intros Hk. unfold lookup_node. by rewrite Hk, lookup_insert_eq. Qed.

Lemma lookup_node_insert_ne fs k k' n : k <> k' -> lookup_node (<[k := n]> fs) k' = lookup_node fs k'.
Proof. intros Hk. unfold lookup_node. by rewrite lookup_insert_ne. Qed.

Lemma keeps_all_refl fs : keeps_all fs fs.
Proof. by intros k n. Qed.

Lemma keeps_all_trans fs1 fs2 fs3 : keeps_all fs1 fs2 -> keeps_all fs2 fs3 -> keeps_all fs1 fs3.
Proof. intros H12 H23 k n Hk. eauto. Qed.

Lemma keeps_all_insert_fresh fs k n : fs !! k = None -> keeps_all fs (<[k := n]> fs).
Proof.
  intros Hk k' n' Hk'. destruct (decide (k = k')) as [->|Hne]; [congruence|].
  by rewrite lookup_insert_ne.
Qed.




Lemma mkdir_key_keeps k fs : keeps_all fs (mkdir_key k fs).2.
Proof.
  unfold mkdir_key. destruct (lookup_node fs k) eqn:Hk; [apply keeps_all_refl|].
  apply lookup_node_None in Hk as [_ Hk].
  destruct (lookup_node fs (parent k)) as [[]|]; simpl;
    auto using keeps_all_refl, keeps_all_insert_fresh.
Qed.

Lemma mkdir_key_returned k fs fs' :
  mkdir_key k fs = (Returned tt, fs') ->
  lookup_node fs k = None /\ lookup_node fs' k = Some Dir.
Proof.
  unfold mkdir_key. destruct (lookup_node fs k) eqn:Hk; [done|].
  destruct (lookup_node_None _ _ Hk) as [Ha _].
  destruct (lookup_node fs (parent k)) as [[]|]; try done.
  intros [= <-]. split; [done|]. by apply lookup_node_insert.
Qed.



Lemma makedirs_key_keeps rk fs : keeps_all fs (makedirs_key rk fs).2.
Proof.
  revert fs. induction rk as [|c rhead IH]; intros fs; cbn [makedirs_key]; [apply mkdir_key_keeps|].
  destruct (negb _ && negb _); [|apply mkdir_key_keeps].
  specialize (IH fs). destruct (makedirs_key rhead fs) as [[[]|e] fs1]; simpl in *.
  - eapply keeps_all_trans; [exact IH|apply mkdir_key_keeps].
  - destruct e; simpl; try exact IH.
    eapply keeps_all_trans; [exact IH|apply mkdir_key_keeps].
Qed.

Lemma makedirs_key_returned rk fs fs' :
  makedirs_key rk fs = (Returned tt, fs') -> lookup_node fs' (rev rk) = Some Dir.
Proof.
  destruct rk as [|c rhead]; cbn [makedirs_key].
  - intros Hm. by apply mkdir_key_returned in Hm as [_ ?].
  - destruct (negb _ && negb _).
    + destruct (makedirs_key rhead fs) as [[[]|e] fs1].
      * intros Hm. by apply mkdir_key_returned in Hm as [_ ?].
      * destruct e; try done. intros Hm. by apply mkdir_key_returned in Hm as [_ ?].
    + intros Hm. by apply mkdir_key_returned in Hm as [_ ?].
Qed.

Lemma os_mkdir_keeps p fs : keeps_all fs (os_mkdir p fs).2.
Proof. unfold os_mkdir. destruct (truthy p); [apply mkdir_key_keeps|apply keeps_all_refl]. Qed.

Lemma os_makedirs_keeps p fs : keeps_all fs (os_makedirs p fs).2.
Proof. unfold os_makedirs. destruct (truthy p); [apply makedirs_key_keeps|apply keeps_all_refl]. Qed.

Lemma os_mkdir_returned p fs fs' :
  os_mkdir p fs = (Returned tt, fs') -> stat p fs = None /\ stat p fs' = Some Dir.
Proof.
  unfold os_mkdir, stat. destruct (truthy p); [|done]. apply mkdir_key_returned.
Qed.

Lemma os_makedirs_returned p fs fs' :
  os_makedirs p fs = (Returned tt, fs') -> stat p fs' = Some Dir.
Proof.
  unfold os_makedirs, stat. destruct (truthy p); [|done].
  intros Hm. apply makedirs_key_returned in Hm. by rewrite rev_involutive in Hm.
Qed.


(** Writing: the written entry becomes a file, every other entry stays. *)
Lemma write_node_frame p c fs k :
  k <> resolve p -> (write_node p c fs).2 !! k = fs !! k.
Proof.
  intros Hk. unfold write_node. destruct (truthy p); [|done].
  destruct (lookup_node fs (resolve p)) as [[]|]; simpl; try done;
    destruct (lookup_node fs (parent (resolve p))) as [[]|]; simpl; try done;
    by rewrite lookup_insert_ne.
Qed.


Lemma write_node_returned p c fs fs' :
  write_node p c fs = (Returned tt, fs') ->
  fs' = <[resolve p := File c]> fs /\ stat p fs' = Some (File c) /\ stat p fs <> Some Dir.
Proof.
  unfold write_node, stat. destruct (truthy p); [|done].
  assert (Ha : lookup_node fs (resolve p) <> Some Dir ->
               lookup_node (<[resolve p := File c]> fs) (resolve p) = Some (File c)).
  { unfold lookup_node. destruct (is_anchor (resolve p)); [done|]. by rewrite lookup_insert_eq. }
  destruct (lookup_node fs (resolve p)) as [[]|] eqn:Hp; try done;
    destruct (lookup_node fs (parent (resolve p))) as [[]|]; try done;
    intros [= <-]; auto.
Qed.

Lemma shutil_copyfile_frame src dst fs k :
  k <> resolve dst -> (shutil_copyfile src dst fs).2 !! k = fs !! k.
Proof.
  intros Hk. unfold shutil_copyfile. destruct (_ && _); [done|].
  destruct (stat src fs) as [[]|]; try done. by apply write_node_frame.
Qed.


Lemma shutil_copyfile_returned src dst fs fs' :
  shutil_copyfile src dst fs = (Returned tt, fs') ->
  exists c, stat src fs = Some (File c) /\ fs' = <[resolve dst := File c]> fs /\
            stat dst fs' = Some (File c) /\
            (is_Some (stat dst fs) -> resolve src <> resolve dst).
Proof.
  unfold shutil_copyfile.
  destruct (os_path_exists src fs && os_path_exists dst fs && bool_decide (resolve src = resolve dst)) eqn:Hsame;
    [done|].
  destruct (stat src fs) as [[c|]|] eqn:Hsrc; try done.
  intros Hw. apply write_node_returned in Hw as (-> & Hdst & _).
  exists c. repeat split; auto.
  intros Hex Heq. unfold os_path_exists in Hsame.
  rewrite Hsrc in Hsame. rewrite !bool_decide_eq_true_2 in Hsame by eauto. done.
Qed.

Lemma shutil_copyfile_not_file src dst fs :
  (forall c, stat src fs <> Some (File c)) ->
  exists e, shutil_copyfile src dst fs = (Raised e, fs).
Proof.
  intros Hsrc. unfold shutil_copyfile. destruct (_ && _); [eauto|].
  destruct (stat src fs) as [[c|]|]; eauto. by destruct (Hsrc c).
Qed.

(** ** The working directory *)

Lemma prepare_working_dir_cases now args fs :
  let r := prepare_working_dir now args fs in
  let wd := working_dir_name now args in
  (result r = Returned wd /\
     (log r = [PathExists wd] \/ log r = [PathExists wd; Makedirs wd] \/ log r = [Mkdir wd]))
  \/ (exists e, result r = Raised e /\
        (log r = [PathExists wd; Makedirs wd] \/ log r = [Mkdir wd])).
Proof.
  unfold prepare_working_dir, working_dir_name, create_working_dir, bind, call, ret, result, log.
  destruct (output_dir args) as [d|]; [destruct (truthy d) eqn:Hd|]; simpl.
  - destruct (os_path_exists d fs); simpl; [left; auto|].
    destruct (os_makedirs d fs) as [[[]|e] fs1]; simpl; [left; auto|right; eauto].
  - destruct (os_mkdir _ fs) as [[[]|e] fs1]; simpl; [left; auto|right; eauto].
  - destruct (os_mkdir _ fs) as [[[]|e] fs1]; simpl; [left; auto|right; eauto].
Qed.

Lemma pretty_N_char_not_sep x : pretty_N_char x <> sep.
Proof. unfold pretty_N_char. repeat case_match; done. Qed.

Lemma no_sep_cons c s : c <> sep -> no_sep s -> no_sep (String c s).
Proof.
  unfold no_sep. intros Hc Hs. simpl. rewrite Hs.
  destruct (Ascii.eqb_spec c sep); done.
Qed.

Lemma pretty_N_go_no_sep x s : no_sep s -> no_sep (pretty_N_go x s).
Proof.
  revert s. induction (N.lt_wf_0 x) as [x _ IH]; intros s Hs.
  destruct (decide (x = 0)%N) as [->|Hx]; [by rewrite pretty_N_go_0|].
  rewrite pretty_N_go_step by lia.
  apply IH; [apply N.div_lt; lia|].
  apply no_sep_cons; auto using pretty_N_char_not_sep.
Qed.

Lemma timestamp_no_sep now : no_sep (timestamp_whole_seconds now).
Proof.
  unfold timestamp_whole_seconds, pretty, pretty_N.
  case_decide; [done|]. by apply pretty_N_go_no_sep.
Qed.

Lemma no_sep_app a b : no_sep a -> no_sep b -> no_sep (a +:+ b).
Proof.
  unfold no_sep. induction a as [|c a IH]; intros Ha Hb; [exact Hb|].
  rewrite append_cons. simpl in Ha |- *.
  destruct (Ascii.eqb c sep); [done|].
  pose proof (split_sep_nonempty a) as Hne.
  destruct (split_sep a) as [|s0 ss] eqn:Hsa; [done|].
  injection Ha as -> ->. by rewrite IH.
Qed.

Lemma fresh_name_resolve now :
  let name := "metrics-" +:+ timestamp_whole_seconds now in
  truthy name = true /\ resolve name = [name].
Proof.
  intros name. split; [done|].
  assert (Hn : no_sep name) by (apply no_sep_app; [done|apply timestamp_no_sep]).
  unfold resolve, components. rewrite Hn. subst name.
  rewrite append_cons. simpl startswith_sep. cbn [app].
  rewrite filter_cons_True; [done|]. done.
Qed.





Lemma lookup_node_frame fs fs' k : fs' !! k = fs !! k -> lookup_node fs' k = lookup_node fs k.
Proof. intros Hk. unfold lookup_node. by rewrite Hk. Qed.

Lemma parent_snoc k c : parent (k ++ [c]) = k.
Proof. unfold parent. apply removelast_last. Qed.



Lemma prepare_working_dir_keeps_all now (args : Args) fs :
  keeps_all fs (final_fs (prepare_working_dir now args fs)).
Proof.
  set (name := "metrics-" +:+ timestamp_whole_seconds now).
  unfold prepare_working_dir, create_working_dir, bind, call, ret, final_fs.
  destruct (output_dir args) as [d|]; [destruct (truthy d)|]; simpl.
  - destruct (os_path_exists d fs); simpl; [apply keeps_all_refl|].
    pose proof (os_makedirs_keeps d fs) as Hk.
    by destruct (os_makedirs d fs) as [[[]|e] fs1].
  - pose proof (os_mkdir_keeps name fs) as Hk. fold name.
    by destruct (os_mkdir name fs) as [[[]|e] fs1].
  - pose proof (os_mkdir_keeps name fs) as Hk. fold name.
    by destruct (os_mkdir name fs) as [[[]|e] fs1].
Qed.



(** ** Frames *)

Lemma join_inside a b : startswith_sep b = false -> inside a (resolve (join a b)).
Proof.
  intros Hb. unfold inside. destruct (truthy a) eqn:Ha.
  - rewrite resolve_join by done. by apply prefix_app_r.
  - destruct a; [|done]. apply prefix_nil.
Qed.







Section Frames.
Context {A B : Type} (R : relation (gmap key node)).
Context `{!Reflexive R, !Transitive R}.

Lemma frames_ret (a : A) : frames R (ret a).
Proof. intros fs. reflexivity. Qed.


Lemma frames_call_pure (e : event) (r : outcome A) : frames R (call_pure e r).
Proof. intros fs. reflexivity. Qed.


End Frames.

Section Confined.
Context {A B : Type} (d : string).




End Confined.






Lemma stage_optional_result wd o fs a :
  result (stage_optional wd o fs) = Returned a -> a = staged_opt wd o.
Proof.
  destruct o as [x|]; simpl; unfold bind, call, ret, result, staged; simpl.
  - destruct (shutil_copyfile _ _ fs) as [[[]|e] fs1]; simpl; congruence.
  - congruence.
Qed.


Lemma stage_inputs_result (args : Args) wd fs paths :
  result (stage_inputs args wd fs) = Returned paths ->
  paths = (staged wd (dsm args), staged wd (cls args),
           staged_opt wd (mtl args), staged_opt wd (dtm args)).
Proof.
  unfold stage_inputs, bind, call, ret, result, staged.
  destruct (shutil_copyfile (dsm args) _ fs) as [[[]|e] fs1]; simpl; [|done].
  destruct (shutil_copyfile (cls args) _ fs1) as [[[]|e] fs2]; simpl; [|done].
  pose proof (stage_optional_result wd (mtl args) fs2) as Hm. unfold result in Hm.
  destruct (stage_optional wd (mtl args) fs2) as [[[tm|e] fs3] l3]; simpl in *; [|done].
  pose proof (stage_optional_result wd (dtm args) fs3) as Hd. unfold result in Hd.
  destruct (stage_optional wd (dtm args) fs3) as [[[td|e] fs4] l4]; simpl in *; [|done].
  rewrite (Hm tm eq_refl), (Hd td eq_refl). congruence.
Qed.

Section Disciplined.
Context `{Disciplined}.





End Disciplined.

(** ** Staging *)

Lemma stat_frame p fs fs' : fs' !! resolve p = fs !! resolve p -> stat p fs' = stat p fs.
Proof. intros Hk. unfold stat, lookup_node. by rewrite Hk. Qed.

Lemma stat_file_lookup p fs c : stat p fs = Some (File c) -> fs !! resolve p = Some (File c).
Proof.
  unfold stat, lookup_node. destruct (truthy p); [|done]. by destruct (is_anchor (resolve p)).
Qed.

Lemma stat_insert_file p k c fs :
  (exists c0, stat p fs = Some (File c0)) -> exists c1, stat p (<[k := File c]> fs) = Some (File c1).
Proof.
  intros [c0 Hp]. unfold stat, lookup_node in *. destruct (truthy p); [|done].
  destruct (is_anchor (resolve p)); [done|].
  destruct (decide (k = resolve p)) as [->|Hne].
  - rewrite lookup_insert_eq. eauto.
  - rewrite lookup_insert_ne by done. eauto.
Qed.

Lemma shutil_copyfile_cases src dst fs :
  (shutil_copyfile src dst fs).2 = fs \/
  exists c, shutil_copyfile src dst fs = (Returned tt, <[resolve dst := File c]> fs).
Proof.
  destruct (shutil_copyfile src dst fs) as [[[]|e] fs'] eqn:Hc.
  - right. apply shutil_copyfile_returned in Hc as (c & _ & -> & _). eauto.
  - left. revert Hc. unfold shutil_copyfile, write_node.
    repeat case_match; by intros [= <-].
Qed.

Lemma shutil_copyfile_keeps_file src dst fs p :
  (exists c, stat p fs = Some (File c)) ->
  exists c, stat p (shutil_copyfile src dst fs).2 = Some (File c).
Proof.
  intros Hp. destruct (shutil_copyfile_cases src dst fs) as [->|[c ->]]; [done|].
  by apply stat_insert_file.
Qed.

Lemma stage_optional_keeps_file wd o fs p :
  (exists c, stat p fs = Some (File c)) ->
  exists c, stat p (final_fs (stage_optional wd o fs)) = Some (File c).
Proof.
  intros Hp. destruct o as [a|]; [|done].
  unfold stage_optional, bind, call, ret, final_fs.
  pose proof (shutil_copyfile_keeps_file a (join wd (basename a)) fs p Hp) as Hk.
  by destruct (shutil_copyfile a _ fs) as [[[]|e] fs1].
Qed.

Lemma stage_optional_staged wd a fs t :
  result (stage_optional wd (Some a) fs) = Returned t ->
  exists c, stat (staged wd a) (final_fs (stage_optional wd (Some a) fs)) = Some (File c).
Proof.
  unfold stage_optional, bind, call, ret, result, final_fs, staged.
  destruct (shutil_copyfile a _ fs) as [[[]|e] fs1] eqn:Hc; simpl; [|done].
  intros _. apply shutil_copyfile_returned in Hc as (c & _ & _ & Hs & _). eauto.
Qed.

Lemma stage_inputs_files (args : Args) wd fs paths :
  result (stage_inputs args wd fs) = Returned paths ->
  forall a, In a (candidates args) ->
            exists c, stat (staged wd a) (final_fs (stage_inputs args wd fs)) = Some (File c).
Proof.
  unfold stage_inputs, candidates, bind, call, ret, result, final_fs.
  fold (staged wd (dsm args)). fold (staged wd (cls args)).
  destruct (shutil_copyfile (dsm args) _ fs) as [[[]|e] fs1] eqn:H1; simpl; [|done].
  destruct (shutil_copyfile (cls args) _ fs1) as [[[]|e] fs2] eqn:H2; simpl; [|done].
  destruct (stage_optional wd (mtl args) fs2) as [[[tm|e] fs3] l3] eqn:H3; simpl; [|done].
  destruct (stage_optional wd (dtm args) fs3) as [[[td|e] fs4] l4] eqn:H4; simpl; [|done].
  assert (K3 : forall p, (exists c, stat p fs2 = Some (File c)) -> exists c, stat p fs3 = Some (File c)).
  { intros p Hp. pose proof (stage_optional_keeps_file wd (mtl args) fs2 p Hp) as Hk.
    by rewrite H3 in Hk. }
  assert (K4 : forall p, (exists c, stat p fs3 = Some (File c)) -> exists c, stat p fs4 = Some (File c)).
  { intros p Hp. pose proof (stage_optional_keeps_file wd (dtm args) fs3 p Hp) as Hk.
    by rewrite H4 in Hk. }
  intros _ a Ha.
  assert (Hd : exists c, stat (staged wd (dsm args)) fs1 = Some (File c)).
  { apply shutil_copyfile_returned in H1 as (c & _ & _ & Hs & _). eauto. }
  assert (Hc : exists c, stat (staged wd (cls args)) fs2 = Some (File c)).
  { apply shutil_copyfile_returned in H2 as (c & _ & _ & Hs & _). eauto. }
  assert (Hd2 : exists c, stat (staged wd (dsm args)) fs2 = Some (File c)).
  { pose proof (shutil_copyfile_keeps_file (cls args) (staged wd (cls args)) fs1 _ Hd) as Hk.
    by rewrite H2 in Hk. }
  destruct Ha as [<-|[<-|Ha]]; [by apply K4, K3|by apply K4, K3|].
  apply in_app_iff in Ha as [Ha|Ha].
  - destruct (mtl args) as [m|]; [|done]. destruct Ha as [<-|[]].
    apply K4. pose proof (stage_optional_staged wd m fs2 tm) as Hs.
    rewrite H3 in Hs. by apply Hs.
  - destruct (dtm args) as [t|]; [|done]. destruct Ha as [<-|[]].
    pose proof (stage_optional_staged wd t fs3 td) as Hs.
    rewrite H4 in Hs. by apply Hs.
Qed.

Lemma stage_optional_copy_all wd o fs t :
  result (stage_optional wd o fs) = Returned t ->
  copy_all wd (supplied o) fs = (Returned tt, final_fs (stage_optional wd o fs)) /\
  log (stage_optional wd o fs) = map (fun a => Copyfile a (staged wd a)) (supplied o).
Proof.
  destruct o as [a|]; [|done].
  unfold stage_optional, bind, call, ret, result, final_fs, log. cbn [supplied copy_all map].
  fold (staged wd a). by destruct (shutil_copyfile a (staged wd a) fs) as [[[]|e] fs1].
Qed.

Lemma copy_all_app wd l l' fs fs' :
  copy_all wd (l ++ l') fs = (Returned tt, fs') <->
  exists fs1, copy_all wd l fs = (Returned tt, fs1) /\ copy_all wd l' fs1 = (Returned tt, fs').
Proof.
  revert fs. induction l as [|a l IH]; intros fs; cbn [app copy_all].
  - split; [eauto|]. by intros (fs1 & [= <-] & Hl').
  - destruct (shutil_copyfile a (staged wd a) fs) as [[[]|e] fs0]; [apply IH|].
    split; [done|]. by intros (fs1 & Hno & _).
Qed.

Lemma stage_inputs_copy_all (args : Args) wd fs paths :
  result (stage_inputs args wd fs) = Returned paths ->
  copy_all wd (candidates args) fs = (Returned tt, final_fs (stage_inputs args wd fs)) /\
  log (stage_inputs args wd fs) = planned_copies wd args.
Proof.
  unfold stage_inputs, planned_copies, candidates, bind, call, ret, result, final_fs, log.
  fold (staged wd (dsm args)). fold (staged wd (cls args)). cbn [app copy_all map].
  destruct (shutil_copyfile (dsm args) _ fs) as [[[]|e] fs1]; simpl; [|done].
  destruct (shutil_copyfile (cls args) _ fs1) as [[[]|e] fs2]; simpl; [|done].
  pose proof (stage_optional_copy_all wd (mtl args) fs2) as H3.
  unfold result, final_fs, log in H3.
  destruct (stage_optional wd (mtl args) fs2) as [[[tm|e] fs3] l3]; simpl in *; [|done].
  pose proof (stage_optional_copy_all wd (dtm args) fs3) as H4.
  unfold result, final_fs, log in H4.
  destruct (stage_optional wd (dtm args) fs3) as [[[td|e] fs4] l4]; simpl in *; [|done].
  destruct (H3 tm eq_refl) as [C3 L3]. destruct (H4 td eq_refl) as [C4 L4].
  intros _. split.
  - apply copy_all_app. eauto.
  - by rewrite L3, L4, app_nil_r, map_app.
Qed.

Lemma copy_all_frame wd l fs k :
  (forall x, In x l -> resolve (staged wd x) <> k) -> (copy_all wd l fs).2 !! k = fs !! k.
Proof.
  revert fs. induction l as [|a l IH]; intros fs Hl; [done|]. cbn [copy_all].
  pose proof (shutil_copyfile_frame a (staged wd a) fs k) as Hf.
  destruct (shutil_copyfile a (staged wd a) fs) as [[[]|e] fs1]; simpl in Hf |- *.
  - rewrite IH; [apply Hf|]; intros; [intros ->; eapply Hl; [by left|done]|apply Hl; by right].
  - apply Hf. intros ->. eapply Hl; [by left|done].
Qed.

Lemma copy_all_keeps_file wd l fs p :
  (exists c, stat p fs = Some (File c)) -> exists c, stat p (copy_all wd l fs).2 = Some (File c).
Proof.
  revert fs. induction l as [|a l IH]; intros fs Hp; [done|]. cbn [copy_all].
  pose proof (shutil_copyfile_keeps_file a (staged wd a) fs p Hp) as Hk.
  destruct (shutil_copyfile a (staged wd a) fs) as [[[]|e] fs1]; simpl in Hk |- *; [|done].
  by apply IH.
Qed.

Lemma copy_all_overwrites wd l1 a l2 b l3 fs fs' :
  copy_all wd (l1 ++ a :: l2 ++ b :: l3) fs = (Returned tt, fs') ->
  staged wd a = staged wd b ->
  (forall x, In x (l1 ++ l2) -> resolve (staged wd x) <> resolve b) ->
  (forall x, In x l3 -> resolve (staged wd x) <> resolve (staged wd b)) ->
  exists c, stat b fs = Some (File c) /\ stat (staged wd b) fs' = Some (File c).
Proof.
  intros Hall Hst Hsrc Hlater.
  apply copy_all_app in Hall as (fs1 & H1 & Hall). cbn [copy_all] in Hall.
  destruct (shutil_copyfile a (staged wd a) fs1) as [[[]|e] fs2] eqn:Ha; [|done].
  apply copy_all_app in Hall as (fs3 & H2 & Hall). cbn [copy_all] in Hall.
  destruct (shutil_copyfile b (staged wd b) fs3) as [[[]|e] fs4] eqn:Hb; [|done].
  apply shutil_copyfile_returned in Ha as (ca & _ & Hfs2 & Hdst_a & _).
  apply shutil_copyfile_returned in Hb as (c & Hsrc_b & _ & Hdst_b & Hne).
  exists c. split.
  - assert (Hstaged : is_Some (stat (staged wd b) fs3)).
    { destruct (copy_all_keeps_file wd l2 fs2 (staged wd b)) as [c' Hc'].
      - exists ca. by rewrite <- Hst.
      - rewrite H2 in Hc'. simpl in Hc'. by rewrite Hc'. }
    specialize (Hne Hstaged).
    rewrite <- Hsrc_b. symmetry.
    transitivity (stat b fs2); [|transitivity (stat b fs1)].
    + apply stat_frame. pose proof (copy_all_frame wd l2 fs2 (resolve b)) as Hf.
      rewrite H2 in Hf. apply Hf. intros x Hx. apply Hsrc, in_app_iff. by right.
    + apply stat_frame. rewrite Hfs2. apply lookup_insert_ne. by rewrite Hst.
    + apply stat_frame. pose proof (copy_all_frame wd l1 fs (resolve b)) as Hf.
      rewrite H1 in Hf. apply Hf. intros x Hx. apply Hsrc, in_app_iff. by left.
  - rewrite <- Hdst_b. apply stat_frame.
    pose proof (copy_all_frame wd l3 fs4 (resolve (staged wd b)) Hlater) as Hf.
    by rewrite Hall in Hf.
Qed.

(** C9.  Shared base names.  The staged path depends on the base name of
    the input only.  When an input [a] and an input [b] handled after it
    have the same base name, both are staged under one path; [b] is copied
    over the staged [a] without an error, and after a staging that succeeds
    that path holds the content of [b], as long as no later input is staged
    there too (and the inputs that are not [a] were not staged over [b]
    itself).  The paths recorded for the roles are the staged paths, so both
    roles name the same file. *)
Theorem same_basename_overwrites (args : Args) wd fs paths l1 a l2 b l3 :
  let r := stage_inputs args wd fs in
  candidates args = l1 ++ a :: l2 ++ b :: l3 ->
  basename a = basename b ->
  (forall x, In x (l1 ++ l2) -> resolve (staged wd x) <> resolve b) ->
  (forall x, In x l3 -> resolve (staged wd x) <> resolve (staged wd b)) ->
  result r = Returned paths ->
  staged wd a = staged wd b /\
  paths = (staged wd (dsm args), staged wd (cls args),
           staged_opt wd (mtl args), staged_opt wd (dtm args)) /\
  log r = map (fun x => Copyfile x (staged wd x)) (l1 ++ a :: l2 ++ b :: l3) /\
  exists c, stat b fs = Some (File c) /\ stat (staged wd b) (final_fs r) = Some (File c).
Proof.
  intros r Hcand Hbase Hsrc Hlater Hr. subst r.
  assert (Hst : staged wd a = staged wd b) by (unfold staged; by rewrite Hbase).
  destruct (stage_inputs_copy_all args wd fs paths Hr) as [Hcopy Hlog].
  split; [exact Hst|]. split; [exact (stage_inputs_result args wd fs paths Hr)|].
  split; [by rewrite Hlog; unfold planned_copies; rewrite Hcand|].
  rewrite Hcand in Hcopy. by eapply copy_all_overwrites.
Qed.

(** ** After staging *)

Section AfterStaging.
Context `{Disciplined}.


End AfterStaging.

(** ** Failure points *)

Lemma creates_no_file_refl fs : creates_no_file fs fs.
Proof. by intros k c. Qed.

Lemma creates_no_file_trans fs1 fs2 fs3 :
  creates_no_file fs1 fs2 -> creates_no_file fs2 fs3 -> creates_no_file fs1 fs3.
Proof. intros H12 H23 k c Hk. eauto. Qed.

Lemma mkdir_key_no_file k fs : creates_no_file fs (mkdir_key k fs).2.
Proof.
  unfold mkdir_key. destruct (lookup_node fs k); [apply creates_no_file_refl|].
  destruct (lookup_node fs (parent k)) as [[]|]; simpl; try apply creates_no_file_refl.
  intros k' c. destruct (decide (k = k')) as [->|Hne].
  - by rewrite lookup_insert_eq.
  - by rewrite lookup_insert_ne.
Qed.

Lemma makedirs_key_no_file rk fs : creates_no_file fs (makedirs_key rk fs).2.
Proof.
  revert fs. induction rk as [|c rhead IH]; intros fs; cbn [makedirs_key];
    [apply mkdir_key_no_file|].
  destruct (negb _ && negb _); [|apply mkdir_key_no_file].
  specialize (IH fs). destruct (makedirs_key rhead fs) as [[[]|e] fs1]; simpl in *.
  - eapply creates_no_file_trans; [exact IH|apply mkdir_key_no_file].
  - destruct e; simpl; try exact IH.
    eapply creates_no_file_trans; [exact IH|apply mkdir_key_no_file].
Qed.

Lemma prepare_working_dir_no_file now (args : Args) fs :
  creates_no_file fs (final_fs (prepare_working_dir now args fs)).
Proof.
  assert (Hmk : forall p, creates_no_file fs (os_mkdir p fs).2).
  { intros p. unfold os_mkdir. destruct (truthy p);
      [apply mkdir_key_no_file|apply creates_no_file_refl]. }
  assert (Hcreate : creates_no_file fs (final_fs (create_working_dir now fs))).
  { unfold create_working_dir, bind, call, ret, final_fs.
    specialize (Hmk ("metrics-" +:+ timestamp_whole_seconds now)).
    by destruct (os_mkdir _ fs) as [[[]|e] fs1]. }
  unfold prepare_working_dir.
  destruct (output_dir args) as [d|]; [destruct (truthy d)|]; [|done..].
  unfold bind, call, ret, final_fs. simpl.
  destruct (os_path_exists d fs); simpl; [apply creates_no_file_refl|].
  assert (Hm : creates_no_file fs (os_makedirs d fs).2).
  { unfold os_makedirs. destruct (truthy d);
      [apply makedirs_key_no_file|apply creates_no_file_refl]. }
  by destruct (os_makedirs d fs) as [[[]|e] fs1].
Qed.

Lemma stat_no_file p fs fs' c :
  creates_no_file fs fs' -> stat p fs' = Some (File c) -> stat p fs = Some (File c).
Proof.
  intros Hn. unfold stat, lookup_node. destruct (truthy p); [|done].
  destruct (is_anchor (resolve p)); [done|]. apply Hn.
Qed.

(** ** Logs *)

Lemma sorted_lookup_le {A} (f : A -> nat) (l : list A) i j a b :
  StronglySorted (fun x y => f x <= f y) l ->
  l !! i = Some a -> l !! j = Some b -> i < j -> f a <= f b.
Proof.
  intros Hs. revert i j a b.
  induction Hs as [|x l Hs IH Hx]; intros i j a b Hi Hj Hij; [done|].
  destruct j as [|j]; [lia|]. destruct i as [|i]; simpl in *.
  - injection Hi as <-. rewrite Forall_forall in Hx. apply Hx.
    by eapply list_elem_of_lookup_2.
  - eapply IH; eauto. lia.
Qed.

Lemma sorted_lookup_lt {A} (f : A -> nat) (l : list A) i j a b :
  StronglySorted (fun x y => f x <= f y) l ->
  l !! i = Some a -> l !! j = Some b -> f a < f b -> i < j.
Proof.
  intros Hs Hi Hj Hab. destruct (decide (i < j)) as [|Hn]; [done|].
  destruct (decide (i = j)) as [->|Hne].
  - rewrite Hi in Hj. injection Hj as ->. lia.
  - assert (f b <= f a) by (eapply (sorted_lookup_le f l j i); eauto; lia). lia.
Qed.

(** Case analysis on a run of [main]: one case per point where it can
    stop.  The goal is first put in the form "for the triple [x] that
    [main] yields, ...", so that the run is unfolded once. *)
Ltac split_run Hwd :=
  repeat match goal with
    | |- context [truthy EmptyString] => rewrite truthy_empty
    | |- context [truthy (join ?a ?b)] => rewrite (join_truthy a b Hwd)
    | |- context [match ?x with _ => _ end] =>
        lazymatch x with
        | context [match _ with _ => _ end] => fail
        | _ => destruct x eqn:?
        end
    end.

Ltac enter_main now args fs :=
  let r0 := fresh "r0" in let fs0 := fresh "fs0" in let l0 := fresh "l0" in
  let Hprep := fresh "Hprep" in let Hprep0 := fresh "Hprep0" in
  let Hwd := fresh "Hwd" in let e := fresh "e" in
  let x := fresh "x" in let Hx := fresh "Hx" in
  pose proof (prepare_working_dir_cases now args fs) as Hprep;
  pose proof (working_dir_name_truthy now args) as Hwd;
  unfold planned_copies, planned_reprojections, candidates, supplied, staged_opt, staged,
    reference_dsm, engine_argv in *;
  remember (main now args fs) as x eqn:Hx; revert Hx;
  unfold main, bind at 1;
  destruct (prepare_working_dir now args fs) as [[r0 fs0] l0] eqn:Hprep0;
  cbv [result log fst snd] in Hprep;
  set (wd := working_dir_name now args) in *; clearbody wd;
  destruct Hprep as [[-> Hl0] | [e [-> Hl0]]];
  [ cbv [stage_inputs stage_optional generate_config_file normalize_coordinates
           bind call call_pure ret];
    destruct (mtl args) as [m|]; destruct (dtm args) as [t|];
    split_run Hwd
  | ];
  intros ->;
  cbv [result log final_fs fst snd];
  (destruct Hl0 as [-> | [-> | ->]] || destruct Hl0 as [-> | ->]);
  cbn [app List.filter is_copy is_reprojection is_float32 is_engine is_write is_populate
         crs_answers flat_map map phase last length];
  repeat match goal with u : unit |- _ => destruct u end.

Ltac find_event := simpl; repeat (first [left; reflexivity | right]).

Section Runs.
Context `{Collaborators}.

Lemma main_log_sorted now args fs :
  StronglySorted (fun e1 e2 => phase e1 <= phase e2) (log (main now args fs)).
Proof.
  enter_main now args fs.
  all: repeat (constructor; [|repeat (constructor; [simpl; lia|]); constructor]); try constructor.
Qed.



(** C2.  Order of the steps.  In every run the calls are made in the order
    working directory (phase 0), copies (1), config document (2), CRS
    resolution and reprojection (3), Float32 conversion (4), engine (5):
    no call of a later step precedes a call of an earlier one.  A run in
    which every step succeeds goes through all six steps and ends with the
    engine. *)
Theorem pipeline_steps_in_order now args fs :
  let r := main now args fs in
  StronglySorted (fun e1 e2 => phase e1 <= phase e2) (log r) /\
  (forall i j e1 e2, log r !! i = Some e1 -> log r !! j = Some e2 ->
                     phase e1 < phase e2 -> i < j) /\
  (result r = Returned tt ->
     (forall s, s <= 5 -> In s (map phase (log r))) /\
     exists argv, last (log r) = Some (Core3dMetrics argv)).
Proof.
  intros r. subst r. split; [apply main_log_sorted|]. split.
  { intros i j e1 e2. apply sorted_lookup_lt, main_log_sorted. }
  enter_main now args fs.
  all: intros Hr; try discriminate.
  all: split; [intros s Hs; do 6 (destruct s as [|s]; [find_event|]); lia | by eexists].
Qed.




Lemma main_log_copies now args fs :
  let r := main now args fs in
  let wd := working_dir_name now args in
  List.filter is_copy (log r) `prefix_of` planned_copies wd args /\
  (result r = Returned tt -> List.filter is_copy (log r) = planned_copies wd args) /\
  (exists proj4, List.filter is_reprojection (log r) `prefix_of` planned_reprojections wd proj4 args) /\
  (List.filter is_populate (log r) = [] \/
   exists doc,
     List.filter is_populate (log r) =
       [PopulateTemplate doc (ref_prefix args) (staged wd (dsm args)) (staged wd (cls args))
          (staged_opt wd (mtl args)) (staged_opt wd (dtm args))] /\
     List.filter is_copy (log r) = planned_copies wd args).
Proof.
  intros r wd0. subst r wd0. enter_main now args fs.
  all: split; [by eexists|].
  all: split; [intros Hr; try discriminate; reflexivity|].
  all: split; [first [exists EmptyString; apply prefix_nil | eexists; by eexists]|].
  all: first [left; reflexivity | right; eexists; split; reflexivity].
Qed.

(** C5.  Staging.  In every run the copies are made in the order DSM, CLS,
    MTL when supplied, DTM when supplied, each to the working directory
    joined with the base name of the file; nothing else is copied or
    reprojected.  All of them are made in a run that succeeds, and before
    the config document is populated.  The config builder is given the
    staged paths, and the empty string for an optional input that was not
    supplied.  After a staging that succeeds every staged path holds a
    regular file. *)
Theorem staging_copies_supplied_files now args fs :
  let r := main now args fs in
  let wd := working_dir_name now args in
  List.filter is_copy (log r) `prefix_of` planned_copies wd args /\
  (result r = Returned tt -> List.filter is_copy (log r) = planned_copies wd args) /\
  (exists proj4,
     List.filter is_reprojection (log r) `prefix_of` planned_reprojections wd proj4 args) /\
  (List.filter is_populate (log r) = [] \/
   exists doc,
     List.filter is_populate (log r) =
       [PopulateTemplate doc (ref_prefix args) (staged wd (dsm args)) (staged wd (cls args))
          (staged_opt wd (mtl args)) (staged_opt wd (dtm args))] /\
     List.filter is_copy (log r) = planned_copies wd args) /\
  (staged_opt wd None = EmptyString) /\
  (forall fs0 paths,
     result (stage_inputs args wd fs0) = Returned paths ->
     paths = (staged wd (dsm args), staged wd (cls args),
              staged_opt wd (mtl args), staged_opt wd (dtm args)) /\
     forall a, In a (candidates args) ->
       exists c, stat (staged wd a) (final_fs (stage_inputs args wd fs0)) = Some (File c)).
Proof.
  intros r wd. subst r wd.
  destruct (main_log_copies now args fs) as (Hc & Hok & Hr & Hp).
  repeat (split; [done|]). intros fs0 paths Hs.
  split; [exact (stage_inputs_result args _ fs0 paths Hs)|].
  intros a Ha. exact (stage_inputs_files args _ fs0 paths Hs a Ha).
Qed.

End Runs.

(** ** Confinement *)


(** ** The reference implementation observes the discipline *)



(** ** The claims on concrete runs *)


Lemma pipeline_steps_in_order_witness :
  result (reference_main sample_now full_args sample_fs) = Returned tt /\
  (forall s, s <= 5 -> In s (map phase (log (reference_main sample_now full_args sample_fs)))) /\
  exists argv, last (log (reference_main sample_now full_args sample_fs)) = Some (Core3dMetrics argv).
Proof.
  assert (Hok : result (reference_main sample_now full_args sample_fs) = Returned tt)
    by (vm_compute; reflexivity).
  split; [exact Hok|].
  exact (proj2 (proj2 (pipeline_steps_in_order (H := reference_collaborators)
                         sample_now full_args sample_fs)) Hok).
Defined.




Lemma staging_copies_supplied_files_witness :
  result (reference_main sample_now full_args sample_fs) = Returned tt /\
  List.filter is_copy (log (reference_main sample_now full_args sample_fs)) =
    [Copyfile "in/dsm.tif" "runs/today/dsm.tif";
     Copyfile "in/cls.tif" "runs/today/cls.tif";
     Copyfile "in/mtl.tif" "runs/today/mtl.tif"].
Proof.
  assert (Hok : result (reference_main sample_now full_args sample_fs) = Returned tt)
    by (vm_compute; reflexivity).
  split; [exact Hok|].
  exact (proj1 (proj2 (staging_copies_supplied_files (H := reference_collaborators)
                         sample_now full_args sample_fs)) Hok).
Defined.





Lemma same_basename_overwrites_witness :
  candidates alias_args = [] ++ "a/tile.tif" :: [] ++ "b/tile.tif" :: [] /\
  basename "a/tile.tif" = basename "b/tile.tif" /\
  result (stage_inputs alias_args "out" alias_fs) =
    Returned ("out/tile.tif", "out/tile.tif", EmptyString, EmptyString) /\
  exists c, stat "b/tile.tif" alias_fs = Some (File c) /\
            stat "out/tile.tif" (final_fs (stage_inputs alias_args "out" alias_fs)) = Some (File c).
Proof.
  assert (Hcand : candidates alias_args = [] ++ "a/tile.tif" :: [] ++ "b/tile.tif" :: [])
    by reflexivity.
  assert (Hbase : basename "a/tile.tif" = basename "b/tile.tif") by reflexivity.
  assert (Hr : result (stage_inputs alias_args "out" alias_fs) =
               Returned ("out/tile.tif", "out/tile.tif", EmptyString, EmptyString))
    by (vm_compute; reflexivity).
  split; [exact Hcand|]. split; [exact Hbase|]. split; [exact Hr|].
  exact (proj2 (proj2 (proj2
    (same_basename_overwrites alias_args "out" alias_fs _ [] "a/tile.tif" [] "b/tile.tif" []
       Hcand Hbase (fun x (Hx : In x []) => match Hx with end)
       (fun x (Hx : In x []) => match Hx with end) Hr)))).
Defined.


(** * Further properties

    Properties of the code that the claims above leave out: the config
    file, the edges of the directory and staging steps, what a run has
    done when it reaches the engine, and the command line. *)

(** ** Composing computations *)

Lemma bind_raised {A B : Type} (m : M A) (f : A -> M B) fs e :
  result (m fs) = Raised e -> bind m f fs = (Raised e, final_fs (m fs), log (m fs)).
Proof.
  unfold bind, result, final_fs, log. destruct (m fs) as [[[a|e'] fs1] l1]; simpl; [done|].
  by intros [= ->].
Qed.

Lemma bind_returned {A B : Type} (m : M A) (f : A -> M B) fs a :
  result (m fs) = Returned a ->
  bind m f fs = (result (f a (final_fs (m fs))), final_fs (f a (final_fs (m fs))),
                 log (m fs) ++ log (f a (final_fs (m fs)))).
Proof.
  unfold bind, result, final_fs, log. destruct (m fs) as [[[a'|e'] fs1] l1]; simpl; [|done].
  intros [= ->]. by destruct (f a fs1) as [[r fs2] l2].
Qed.

Lemma bind_log_returned {A B : Type} (m : M A) (f : A -> M B) fs a :
  result (m fs) = Returned a ->
  log (bind m f fs) = log (m fs) ++ log (f a (final_fs (m fs))).
Proof. intros Hr. by rewrite (bind_returned _ _ _ _ Hr). Qed.

Lemma bind_log_prefix {A B : Type} (m : M A) (f : A -> M B) fs :
  exists l, log (bind m f fs) = log (m fs) ++ l.
Proof.
  unfold bind, log. destruct (m fs) as [[[a|e] fs1] l1]; simpl.
  - destruct (f a fs1) as [[r fs2] l2]. by exists l2.
  - exists []. by rewrite app_nil_r.
Qed.

(** ** The config file *)

Lemma parent_ne k : k <> [] -> parent k <> k.
Proof.
  intros Hk Heq. apply (f_equal length) in Heq. unfold parent in Heq.
  rewrite removelast_firstn_len, length_take in Heq. destruct k; [done|]. simpl in Heq. lia.
Qed.

Lemma write_node_again p c fs fs' :
  write_node p c fs = (Returned tt, fs') -> write_node p c fs' = (Returned tt, fs').
Proof.
  intros Hw. pose proof Hw as Hw'. apply write_node_returned in Hw' as (-> & Hst & _).
  revert Hw. unfold write_node, stat in *. destruct (truthy p); [|done].
  destruct (is_anchor (resolve p)) eqn:Ha.
  { unfold lookup_node. rewrite Ha. done. }
  rewrite lookup_node_insert by done.
  destruct (lookup_node fs (resolve p)) as [[|]|] eqn:Hl; try done;
  destruct (lookup_node fs (parent (resolve p))) as [[|]|] eqn:Hp; try done; intros _.
  all: rewrite lookup_node_insert_ne, Hp, insert_insert_eq; [done|].
  all: intros Heq; symmetry in Heq; revert Heq; apply parent_ne;
    intros Hnil; rewrite Hnil in Ha; done.
Qed.

Section ConfigFile.
Context `{Collaborators}.

(** X1.  What [generate_config_file] leaves behind.  When it returns, the
    path it returns is [os.path.join(working_dir, config.get_filename(test_dsm,
    test_cls))], the calls it made are [get_template], [populate_template],
    [get_filename] and the write, in this order, the file at the returned
    path holds exactly the populated template and no other entry of the
    file system changed.  A relative file name puts the config file inside
    the working directory; an absolute one is used as it is, wherever it
    points. *)
Theorem config_file_written wd ref td tc tm tdt fs p :
  let r := generate_config_file wd ref td tc tm tdt fs in
  result r = Returned p ->
  exists tmpl doc name,
    config_get_template = Returned tmpl /\
    config_populate_template tmpl ref td tc tm tdt = Returned doc /\
    config_get_filename td tc = Returned name /\
    p = join wd name /\
    log r = [GetTemplate; PopulateTemplate tmpl ref td tc tm tdt; GetFilename td tc;
             WriteFile p doc] /\
    final_fs r = <[resolve p := File (Bytes doc)]> fs /\
    stat p (final_fs r) = Some (File (Bytes doc)) /\
    (startswith_sep name = false -> inside wd (resolve p)) /\
    (startswith_sep name = true -> p = name).
Proof.
  cbv [generate_config_file bind call call_pure ret open_write result log final_fs fst snd].
  destruct config_get_template as [tmpl|] eqn:Ht; [|done].
  destruct (config_populate_template tmpl ref td tc tm tdt) as [doc|] eqn:Hd; [|done].
  destruct (config_get_filename td tc) as [name|] eqn:Hn; [|done].
  destruct (write_node (join wd name) (Bytes doc) fs) as [[[]|] fs'] eqn:Hw; [|done].
  intros [= <-]. apply write_node_returned in Hw as (-> & Hst & _).
  exists tmpl, doc, name. split_and!; try done.
  - intros. by apply join_inside.
  - intros Hs. unfold join. by rewrite Hs.
Qed.

(** X2.  [generate_config_file] is all or nothing, and repeatable.  When it
    raises, whether in the config module or on opening the file, the file
    system is as before.  When it returns, calling it again with the same
    arguments overwrites the file with the same document: the same path
    is returned, the same calls are made and the file system does not
    change. *)
Theorem config_file_all_or_nothing wd ref td tc tm tdt fs :
  let g := generate_config_file wd ref td tc tm tdt in
  (forall e, result (g fs) = Raised e -> final_fs (g fs) = fs) /\
  (forall p, result (g fs) = Returned p ->
     g (final_fs (g fs)) = (Returned p, final_fs (g fs), log (g fs))).
Proof.
  cbv [generate_config_file bind call call_pure ret open_write result log final_fs fst snd].
  destruct config_get_template as [tmpl|]; [|done].
  destruct (config_populate_template tmpl ref td tc tm tdt) as [doc|]; [|done].
  destruct (config_get_filename td tc) as [name|]; [|done].
  destruct (write_node (join wd name) (Bytes doc) fs) as [[[]|] fs'] eqn:Hw.
  - split; [done|]. intros p [= <-]. by rewrite (write_node_again _ _ _ _ Hw).
  - split; [|done]. intros _ _. revert Hw. unfold write_node.
    repeat case_match; congruence.
Qed.

End ConfigFile.

(** ** Base names *)

Lemma split_sep_no_sep p : Forall no_sep (split_sep p).
Proof.
  induction p as [|c r IH]; simpl.
  - by repeat constructor.
  - destruct (Ascii.eqb_spec c sep) as [->|Hc].
    + by constructor.
    + pose proof (split_sep_nonempty r) as Hne.
      destruct (split_sep r) as [|s ss]; [done|].
      inversion IH; subst. constructor; [|done]. by apply no_sep_cons.
Qed.

Lemma basename_no_sep p : no_sep (basename p).
Proof.
  unfold basename. pose proof (split_sep_no_sep p) as Hall.
  pose proof (split_sep_nonempty p) as Hne.
  destruct (exists_last Hne) as (l & s & Heq). rewrite Heq in *.
  rewrite last_last. apply Forall_app in Hall as [_ Hs]. by inversion Hs.
Qed.

Lemma components_basename p :
  components (basename p) = if is_component (basename p) then [basename p] else [].
Proof.
  unfold components. rewrite (basename_no_sep p).
  destruct (is_component (basename p)) eqn:Hc.
  - by rewrite filter_cons_True, filter_nil.
  - rewrite filter_cons_False, filter_nil; [done|]. by rewrite Hc.
Qed.

Lemma resolve_staged wd a :
  truthy wd = true -> resolve (staged wd a) = resolve wd ++ components (basename a).
Proof. intros Hwd. apply resolve_join; [done|apply basename_relative]. Qed.

Lemma basename_app_sep a b : basename (a +:+ "/" +:+ b) = basename b.
Proof.
  unfold basename. rewrite split_sep_app.
  pose proof (split_sep_nonempty b) as Hne.
  destruct (exists_last Hne) as (l & s & ->).
  by rewrite app_assoc, !last_last.
Qed.

Lemma basename_join a b : no_sep b -> basename (join a b) = b.
Proof.
  intros Hb. assert (Hbb : basename b = b) by (unfold basename; by rewrite Hb).
  unfold join.
  destruct (startswith_sep b); [done|].
  destruct (truthy a) eqn:Ha; simpl.
  - destruct (endswith_sep a) eqn:He.
    + apply endswith_sep_inv in He as [a' ->].
      rewrite string_app_assoc. by rewrite basename_app_sep.
    + by rewrite basename_app_sep.
  - destruct a; [|done]. by rewrite append_nil.
Qed.

Lemma staged_staged wd a : staged wd (staged wd a) = staged wd a.
Proof. unfold staged. by rewrite basename_join by apply basename_no_sep. Qed.

Lemma resolve_last a :
  is_component (basename a) = true -> exists pre, resolve a = pre ++ [basename a].
Proof.
  intros Hc. unfold resolve, components, basename in *.
  pose proof (split_sep_nonempty a) as Hne.
  destruct (exists_last Hne) as (l & s & Heq). rewrite Heq in *. rewrite last_last in Hc.
  rewrite filter_app, filter_cons_True, filter_nil by done. rewrite last_last.
  eexists. by rewrite app_assoc.
Qed.

Lemma no_sep_relative s : no_sep s -> startswith_sep s = false.
Proof.
  unfold no_sep. destruct s as [|c r]; [done|]. simpl.
  destruct (Ascii.eqb_spec c sep) as [->|Hc]; [|done].
  intros [=].
Qed.

Lemma no_sep_components s : no_sep s -> is_component s = true -> components s = [s].
Proof. intros Hs Hc. unfold components. rewrite Hs. by rewrite filter_cons_True, filter_nil. Qed.

Lemma snoc_not_prefix (k : key) c : ~ (k ++ [c]) `prefix_of` k.
Proof.
  intros Hp. apply prefix_length in Hp. rewrite length_app in Hp. simpl in Hp. lia.
Qed.

(** ** More on the working directory *)

Lemma mkdir_key_adds k0 fs k n :
  (mkdir_key k0 fs).2 !! k = Some n -> fs !! k = None -> n = Dir /\ k = k0.
Proof.
  unfold mkdir_key. repeat case_match; simpl; try congruence.
  intros Hl Hn. destruct (decide (k = k0)) as [->|Hk].
  - rewrite lookup_insert_eq in Hl. by injection Hl as <-.
  - rewrite lookup_insert_ne in Hl by done. congruence.
Qed.

Lemma makedirs_key_adds rk fs k n :
  (makedirs_key rk fs).2 !! k = Some n -> fs !! k = None -> n = Dir /\ k `prefix_of` rev rk.
Proof.
  revert fs n. induction rk as [|c rhead IH]; intros fs n Hl Hn.
  - simpl in Hl. congruence.
  - simpl in Hl.
    assert (Hleaf : forall fs1, (mkdir_key (rev rhead ++ [c]) fs1).2 !! k = Some n ->
              (forall n1, fs1 !! k = Some n1 -> n1 = Dir /\ k `prefix_of` rev rhead) ->
              n = Dir /\ k `prefix_of` rev rhead ++ [c]).
    { intros fs1 Hl1 Hold. destruct (fs1 !! k) as [n1|] eqn:Hk1.
      - destruct (Hold n1 eq_refl) as [-> Hp].
        pose proof (mkdir_key_keeps (rev rhead ++ [c]) fs1 k Dir Hk1) as Hkeep.
        assert (Some n = Some Dir) as [= ->] by (etrans; [symmetry; exact Hl1|exact Hkeep]).
        split; [done|]. by apply prefix_app_r.
      - apply mkdir_key_adds in Hl1 as [-> ->]; done. }
    destruct (negb _ && negb _).
    + pose proof (fun n1 => IH fs n1) as IH'.
      destruct (makedirs_key rhead fs) as [[[]|e] fs1] eqn:Hm; simpl in IH'.
      * apply (Hleaf fs1 Hl). intros n1 Hk1. by apply IH'.
      * destruct e; simpl in Hl;
          try (destruct (IH' n Hl Hn) as [-> Hp]; split; [done|by apply prefix_app_r]).
        apply (Hleaf fs1 Hl). intros n1 Hk1. by apply IH'.
    + apply (Hleaf fs Hl). intros n1 Hk1. congruence.
Qed.

Section WorkingDirectory.
Context `{Collaborators}.

Lemma prepare_working_dir_adds now (args : Args) fs k n :
  final_fs (prepare_working_dir now args fs) !! k = Some n -> fs !! k = None ->
  n = Dir /\ k `prefix_of` resolve (working_dir_name now args).
Proof.
  assert (Hcreate : forall k n,
            final_fs (create_working_dir now fs) !! k = Some n -> fs !! k = None ->
            n = Dir /\ k `prefix_of` resolve ("metrics-" +:+ timestamp_whole_seconds now)).
  { clear k n. intros k n.
    cbv [create_working_dir bind call ret final_fs fst snd]. unfold os_mkdir.
    destruct (fresh_name_resolve now) as [-> Hr].
    pose proof (mkdir_key_adds (resolve ("metrics-" +:+ timestamp_whole_seconds now)) fs k n) as Ha.
    destruct (mkdir_key _ fs) as [[[]|e] fs1] eqn:Hm; simpl; intros Hl Hn;
      destruct (Ha Hl Hn) as [-> ->]; done. }
  unfold prepare_working_dir, working_dir_name.
  destruct (output_dir args) as [d|]; [destruct (truthy d) eqn:Hd|]; [|apply Hcreate..].
  cbv [bind call ret final_fs fst snd].
  destruct (os_path_exists d fs); simpl; [congruence|].
  unfold os_makedirs. rewrite Hd.
  pose proof (makedirs_key_adds (rev (resolve d)) fs k n) as Ha. rewrite rev_involutive in Ha.
  destruct (makedirs_key _ fs) as [[[]|e] fs1]; simpl in *; done.
Qed.

Lemma prepare_working_dir_frame now (args : Args) fs k :
  ~ k `prefix_of` resolve (working_dir_name now args) ->
  lookup_node (final_fs (prepare_working_dir now args fs)) k = lookup_node fs k.
Proof.
  intros Hk. apply lookup_node_frame.
  destruct (fs !! k) as [n|] eqn:Hf.
  - etrans; [|symmetry; exact Hf]. by apply (prepare_working_dir_keeps_all now args fs).
  - etrans; [|symmetry; exact Hf].
    destruct (final_fs (prepare_working_dir now args fs) !! k) as [n|] eqn:Hf0; [|done].
    by destruct (prepare_working_dir_adds now args fs k n Hf0 Hf) as [_ Hp].
Qed.

Lemma prepare_working_dir_exists now (args : Args) fs wd :
  result (prepare_working_dir now args fs) = Returned wd ->
  is_Some (stat wd (final_fs (prepare_working_dir now args fs))).
Proof.
  unfold prepare_working_dir, create_working_dir.
  assert (Hmk : forall name,
    result (bind (call (Mkdir name) (os_mkdir name)) (fun _ => ret name) fs) = Returned wd ->
    is_Some (stat wd (final_fs (bind (call (Mkdir name) (os_mkdir name)) (fun _ => ret name) fs)))).
  { intros name. cbv [bind call ret result final_fs fst snd].
    destruct (os_mkdir name fs) as [[[]|e] fs1] eqn:Hm; [|done].
    intros [= <-]. apply os_mkdir_returned in Hm as [_ ->]. eauto. }
  destruct (output_dir args) as [d|]; [destruct (truthy d)|]; [|apply Hmk..].
  cbv [bind call ret result final_fs fst snd].
  destruct (os_path_exists d fs) eqn:Hex; simpl.
  - intros [= <-]. unfold os_path_exists in Hex. by apply bool_decide_eq_true in Hex.
  - destruct (os_makedirs d fs) as [[[]|e] fs1] eqn:Hm; [|done].
    intros [= <-]. apply os_makedirs_returned in Hm as ->. eauto.
Qed.


(** X4.  What the directory step changes.  Whether it returns or raises,
    preparing the working directory leaves every entry as it was or adds
    a directory on the path to the working directory: it adds no file,
    changes no entry, and adds nothing elsewhere.  The directories that
    [os.makedirs] made before it raised stay. *)
Theorem directory_step_adds_only_the_path now (args : Args) fs k :
  let fs' := final_fs (prepare_working_dir now args fs) in
  fs' !! k = fs !! k \/
  (fs !! k = None /\ fs' !! k = Some Dir /\ k `prefix_of` resolve (working_dir_name now args)).
Proof.
  intros fs'. destruct (fs !! k) as [n|] eqn:Hf.
  - left. by apply (prepare_working_dir_keeps_all now args fs).
  - destruct (fs' !! k) as [n|] eqn:Hf'; [|by left].
    right. destruct (prepare_working_dir_adds now args fs k n Hf' Hf) as [-> Hp]. done.
Qed.


(** X6.  A staged file given back as input.  The staged path of a staged
    path is the path itself ([os.path.basename] undoes [os.path.join]).
    So when the test DSM is a file of the output directory that was
    staged there before, [shutil.copyfile] is asked to copy it onto
    itself: the run raises [SameFileError] at the first copy and changes
    nothing. *)
Theorem staged_file_as_input_is_refused now (args : Args) fs d a0 c :
  output_dir args = Some d -> os_path_exists d fs = true ->
  dsm args = staged d a0 ->
  stat (dsm args) fs = Some (File c) ->
  staged d (dsm args) = dsm args /\
  main now args fs = (Raised SameFileError, fs, [PathExists d; Copyfile (dsm args) (dsm args)]).
Proof.
  intros Hout Hex Hdsm Hst.
  assert (Hd : truthy d = true).
  { unfold os_path_exists, stat in Hex. destruct (truthy d); [done|].
    apply bool_decide_eq_true in Hex. by destruct Hex. }
  assert (Hss : staged d (dsm args) = dsm args) by (rewrite Hdsm; apply staged_staged).
  split; [done|].
  cbv [main prepare_working_dir stage_inputs bind call ret]. rewrite Hout, Hd, Hex. simpl.
  fold (staged d (dsm args)). rewrite Hss.
  unfold shutil_copyfile, os_path_exists. rewrite Hst.
  rewrite bool_decide_eq_true_2 by eauto. rewrite bool_decide_eq_true_2 by done. done.
Qed.

End WorkingDirectory.

(** ** When a copy goes through *)

Lemma stat_lookup p fs n :
  stat p fs = Some n -> truthy p = true /\ lookup_node fs (resolve p) = Some n.
Proof. unfold stat. by destruct (truthy p). Qed.

Lemma lookup_node_insert_file fs kx c k :
  is_anchor kx = false ->
  lookup_node (<[kx := File c]> fs) k = if decide (k = kx) then Some (File c) else lookup_node fs k.
Proof.
  intros Ha. destruct (decide (k = kx)) as [->|Hne].
  - by apply lookup_node_insert.
  - by apply lookup_node_insert_ne.
Qed.

Lemma write_node_succeeds p c fs :
  truthy p = true -> lookup_node fs (resolve p) <> Some Dir ->
  lookup_node fs (parent (resolve p)) = Some Dir ->
  write_node p c fs = (Returned tt, <[resolve p := File c]> fs).
Proof.
  intros Hp Hd Hpar. unfold write_node. rewrite Hp, Hpar.
  by destruct (lookup_node fs (resolve p)) as [[|]|].
Qed.

Lemma write_node_returned_parent p c fs fs' :
  write_node p c fs = (Returned tt, fs') ->
  truthy p = true /\ is_anchor (resolve p) = false /\
  lookup_node fs (resolve p) <> Some Dir /\ lookup_node fs (parent (resolve p)) = Some Dir.
Proof.
  unfold write_node. destruct (truthy p); [|done].
  destruct (is_anchor (resolve p)) eqn:Ha.
  { unfold lookup_node at 1. rewrite Ha. done. }
  destruct (lookup_node fs (resolve p)) as [[|]|];
    destruct (lookup_node fs (parent (resolve p))) as [[|]|]; done.
Qed.

Lemma shutil_copyfile_succeeds src dst fs c :
  stat src fs = Some (File c) -> truthy dst = true ->
  (is_Some (stat dst fs) -> resolve src <> resolve dst) ->
  lookup_node fs (resolve dst) <> Some Dir ->
  lookup_node fs (parent (resolve dst)) = Some Dir ->
  shutil_copyfile src dst fs = (Returned tt, <[resolve dst := File c]> fs).
Proof.
  intros Hs Hd Hne Hnd Hpar. unfold shutil_copyfile.
  destruct (os_path_exists src fs && os_path_exists dst fs && bool_decide (resolve src = resolve dst))
    eqn:Hsame.
  - apply andb_prop in Hsame as [Hsame Heq]. apply andb_prop in Hsame as [_ Hex].
    apply bool_decide_eq_true in Heq. unfold os_path_exists in Hex.
    apply bool_decide_eq_true in Hex. by destruct (Hne Hex).
  - rewrite Hs. by apply write_node_succeeds.
Qed.

Lemma shutil_copyfile_returned_parent src dst fs fs' :
  shutil_copyfile src dst fs = (Returned tt, fs') ->
  truthy dst = true /\ is_anchor (resolve dst) = false /\
  lookup_node fs (resolve dst) <> Some Dir /\ lookup_node fs (parent (resolve dst)) = Some Dir.
Proof.
  unfold shutil_copyfile. destruct (_ && _ && _); [done|].
  destruct (stat src fs) as [[c|]|]; [|done..]. apply write_node_returned_parent.
Qed.

(** ** Staging that fails *)

(** A copy that raises keeps raising after another copy of the staging
    loop went through: the only entry that copy made is a file at its
    staged path, and a candidate that has become that file is then
    copied onto itself, or to a path under or at a file or directory. *)
Lemma copy_raises_persists wd x a fs fs1 :
  truthy wd = true ->
  shutil_copyfile x (staged wd x) fs = (Returned tt, fs1) ->
  (exists e, shutil_copyfile a (staged wd a) fs = (Raised e, fs)) ->
  exists e, shutil_copyfile a (staged wd a) fs1 = (Raised e, fs1).
Proof.
  intros Hwd Hx [e Ha].
  destruct (shutil_copyfile a (staged wd a) fs1) as [[[]|e1] fs2] eqn:Hr.
  2:{ destruct (shutil_copyfile_cases a (staged wd a) fs1) as [Hsame|[c1 Hret]];
        rewrite Hr in *; simpl in *; [subst; eauto|done]. }
  exfalso.
  pose proof (shutil_copyfile_returned _ _ _ _ Hr) as (c1 & Hst1 & _ & _ & Hne1).
  pose proof (shutil_copyfile_returned_parent _ _ _ _ Hr) as (Htd & _ & Hnd1 & Hpar1).
  pose proof (shutil_copyfile_returned _ _ _ _ Hx) as (c & _ & -> & _ & _).
  pose proof (shutil_copyfile_returned_parent _ _ _ _ Hx) as (_ & Hancx & Hndx & Hparx).
  set (kx := resolve (staged wd x)) in *. set (kd := resolve (staged wd a)) in *.
  assert (F' : forall k, lookup_node (<[kx := File c]> fs) k =
                         if decide (k = kx) then Some (File c) else lookup_node fs k)
    by (intros k; by apply lookup_node_insert_file).
  apply stat_lookup in Hst1 as [Hta Hla].
  assert (Hdst1 : is_Some (stat (staged wd a) (<[kx := File c]> fs)) ->
                  resolve a <> kd) by exact Hne1.
  assert (Hstat_dst : forall fs0, stat (staged wd a) fs0 = lookup_node fs0 kd).
  { intros fs0. unfold stat. by rewrite Htd. }
  rewrite Hstat_dst in Hdst1.
  assert (Hfile : exists c', stat a fs = Some (File c')).
  { unfold stat. rewrite Hta. rewrite F' in Hla.
    destruct (decide (resolve a = kx)) as [Hax|Hax]; [|eauto].
    exfalso.
    assert (Hkx : kx = resolve wd ++ components (basename x)) by (by apply resolve_staged).
    assert (Hkd : kd = resolve wd ++ components (basename a)) by (by apply resolve_staged).
    rewrite components_basename in Hkx, Hkd.
    destruct (is_component (basename a)) eqn:Hca; destruct (is_component (basename x)) eqn:Hcx.
    - destruct (resolve_last a Hca) as [pre Hpre]. pose proof Hax as Hax0.
      rewrite Hpre, Hkx in Hax. apply app_inj_tail in Hax as [_ Hb].
      assert (Hdx : kd = kx) by (rewrite Hkd, Hkx; by rewrite Hb).
      apply Hdst1; [|congruence].
      rewrite F'. rewrite decide_True by done. eauto.
    - rewrite app_nil_r in Hkx.
      rewrite Hkd, parent_snoc, <- Hkx, F', decide_True in Hpar1 by done. done.
    - rewrite app_nil_r in Hkd.
      rewrite Hkx, parent_snoc, <- Hkd in Hparx.
      apply Hnd1. rewrite F'. rewrite decide_False; [done|].
      rewrite Hkd, Hkx. intros Heq. apply (f_equal length) in Heq.
      rewrite length_app in Heq. simpl in Heq. lia.
    - rewrite app_nil_r in Hkx, Hkd.
      apply Hdst1; [|congruence].
      rewrite F', decide_True by congruence. eauto. }
  destruct Hfile as [c' Hfile].
  assert (Hgo : shutil_copyfile a (staged wd a) fs =
                (Returned tt, <[resolve (staged wd a) := File c']> fs)).
  { apply shutil_copyfile_succeeds; try done.
    - rewrite Hstat_dst. intros Hsome. apply Hdst1. rewrite F'. case_decide; eauto.
    - fold kd. intros Hd. apply Hnd1. rewrite F'. rewrite decide_False; [done|].
      intros ->. done.
    - fold kd. rewrite F' in Hpar1. by case_decide. }
  rewrite Hgo in Ha. done.
Qed.

Lemma copy_all_raises wd l a fs :
  truthy wd = true -> In a l ->
  (exists e, shutil_copyfile a (staged wd a) fs = (Raised e, fs)) ->
  exists e fs', copy_all wd l fs = (Raised e, fs').
Proof.
  intros Hwd. revert fs. induction l as [|x rest IH]; intros fs Hin Hbad; [done|].
  simpl. destruct (shutil_copyfile x (staged wd x) fs) as [[[]|e1] fs1] eqn:Hx; [|eauto].
  destruct Hin as [->|Hin].
  - destruct Hbad as [e He]. rewrite He in Hx. done.
  - apply IH; [done|]. by eapply copy_raises_persists.
Qed.

Lemma stage_inputs_log_copies (args : Args) wd fs :
  Forall (fun e => is_copy e = true) (log (stage_inputs args wd fs)).
Proof.
  cbv [stage_inputs stage_optional bind call ret log snd].
  destruct (mtl args), (dtm args);
    repeat match goal with
      | |- context [match ?x with _ => _ end] =>
          lazymatch x with
          | context [match _ with _ => _ end] => fail
          | _ => destruct x
          end
      end; simpl; repeat constructor.
Qed.

Lemma stage_inputs_raised_copy_all (args : Args) wd fs e :
  result (stage_inputs args wd fs) = Raised e ->
  exists fs', copy_all wd (candidates args) fs = (Raised e, fs').
Proof.
  unfold candidates, supplied.
  cbv [stage_inputs stage_optional bind call ret result fst snd copy_all app].
  fold (staged wd (dsm args)) (staged wd (cls args)).
  destruct (shutil_copyfile (dsm args) _ fs) as [[[]|e1] fs1]; [|intros [= ->]; eauto].
  destruct (shutil_copyfile (cls args) _ fs1) as [[[]|e2] fs2]; [|intros [= ->]; eauto].
  destruct (mtl args) as [m|]; destruct (dtm args) as [t|]; simpl;
    repeat match goal with
      | |- context [shutil_copyfile ?a (join wd (basename ?a)) ?f] =>
          fold (staged wd a);
          destruct (shutil_copyfile a (staged wd a) f) as [[[]|?] ?]; simpl
      end; try done; intros [= ->]; eauto.
Qed.

Section StagingFails.
Context `{Collaborators}.

(** X7.  An input that is no regular file.  When any supplied candidate
    (DSM, CLS, MTL or DTM) names nothing or a directory, the run raises
    during staging: the calls it made belong to the directory step and to
    the copies, so no config file is written, no raster is converted and
    the engine is not called.  A copy made earlier in the staging cannot
    rescue the run by creating the missing input: the input would then be
    its own staged copy, which [shutil.copyfile] refuses. *)
Theorem input_not_a_file_aborts_staging now (args : Args) fs a :
  In a (candidates args) -> (forall c, stat a fs <> Some (File c)) ->
  let r := main now args fs in
  (exists e, result r = Raised e) /\ Forall (fun e => phase e <= 1) (log r).
Proof.
  intros Hin Hnot r. subst r.
  pose proof (prepare_working_dir_cases now args fs) as Hprep.
  pose proof (working_dir_name_truthy now args) as Hwd.
  pose proof (prepare_working_dir_no_file now args fs) as Hnf.
  cbv zeta in Hprep. set (wd := working_dir_name now args) in *.
  unfold main.
  assert (Hphase0 : Forall (fun e => phase e <= 1) (log (prepare_working_dir now args fs))).
  { destruct Hprep as [[_ Hl]|(e & _ & Hl)];
      repeat destruct Hl as [Hl|Hl]; rewrite Hl; repeat constructor. }
  destruct Hprep as [[Hres _]|(e & Hres & _)].
  2:{ rewrite (bind_raised _ _ _ _ Hres). split; [by exists e|exact Hphase0]. }
  rewrite (bind_returned _ _ _ _ Hres). cbv zeta.
  set (fs0 := final_fs (prepare_working_dir now args fs)) in *.
  assert (Hstage : exists e, result (stage_inputs args wd fs0) = Raised e).
  { destruct (result (stage_inputs args wd fs0)) as [paths|e] eqn:Hr; [|eauto]. exfalso.
    apply stage_inputs_copy_all in Hr as [Hcopy _].
    destruct (copy_all_raises wd (candidates args) a fs0 Hwd Hin) as (e & fs' & He).
    - apply shutil_copyfile_not_file. intros c Hc. apply (Hnot c). by eapply stat_no_file.
    - rewrite He in Hcopy. done. }
  destruct Hstage as [e He]. rewrite (bind_raised _ _ _ _ He).
  unfold result, log. cbn [fst snd]. split; [by exists e|].
  apply Forall_app. split; [exact Hphase0|].
  eapply Forall_impl; [apply stage_inputs_log_copies|].
  intros ev Hev. by destruct ev.
Qed.

End StagingFails.

(** ** Staging again *)

Lemma outside_not_staged wd a x :
  truthy wd = true -> ~ inside wd (resolve a) -> resolve a <> resolve (staged wd x).
Proof. intros Hwd Hout Heq. apply Hout. rewrite Heq. by apply staged_inside. Qed.

Lemma copyable_copy wd x fs :
  truthy wd = true -> copyable wd x fs ->
  exists c, fs !! resolve x = Some (File c) /\
            shutil_copyfile x (staged wd x) fs = (Returned tt, <[resolve (staged wd x) := File c]> fs).
Proof.
  intros Hwd ([c Hst] & Hout & Hnd & Hpar). exists c. split; [by apply stat_file_lookup|].
  apply shutil_copyfile_succeeds; try done.
  - by apply join_truthy.
  - intros _. by apply outside_not_staged.
Qed.

Lemma copyable_after_copy wd x a fs fs1 :
  truthy wd = true ->
  shutil_copyfile x (staged wd x) fs = (Returned tt, fs1) ->
  copyable wd a fs -> copyable wd a fs1.
Proof.
  intros Hwd Hx ([c Hst] & Hout & Hnd & Hpar).
  pose proof (shutil_copyfile_returned _ _ _ _ Hx) as (cx & _ & -> & _ & _).
  pose proof (shutil_copyfile_returned_parent _ _ _ _ Hx) as (_ & Hancx & Hndx & _).
  repeat split.
  - exists c. rewrite <- Hst. apply stat_frame. rewrite lookup_insert_ne; [done|].
    intros Heq. by apply (outside_not_staged wd a x).
  - done.
  - rewrite lookup_node_insert_file by done. case_decide; [done|exact Hnd].
  - rewrite lookup_node_insert_file by done. case_decide as Heq; [|done].
    rewrite Heq in Hpar. by destruct Hndx.
Qed.

Lemma copy_all_returns wd l fs :
  truthy wd = true -> (forall a, In a l -> copyable wd a fs) ->
  exists fs', copy_all wd l fs = (Returned tt, fs').
Proof.
  intros Hwd. revert fs. induction l as [|x rest IH]; intros fs Hall; [by eexists|].
  simpl. destruct (copyable_copy wd x fs Hwd (Hall x (or_introl eq_refl))) as (c & _ & Hx).
  rewrite Hx. apply IH. intros a Ha. eapply copyable_after_copy; [done|exact Hx|].
  apply Hall. by right.
Qed.

Lemma written_ext wd read read' k acc l :
  (forall a, In a l -> read a = read' a) -> written wd read k acc l = written wd read' k acc l.
Proof.
  revert acc. induction l as [|x rest IH]; intros acc Hall; [done|].
  simpl. rewrite (Hall x (or_introl eq_refl)). apply IH. intros a Ha. apply Hall. by right.
Qed.

Lemma written_again wd read k acc l :
  written wd read k (written wd read k acc l) l = written wd read k acc l.
Proof.
  assert (Hcases : forall acc, written wd read k acc l = acc \/
                               forall acc', written wd read k acc' l = written wd read k acc l).
  { clear acc. induction l as [|x rest IH]; intros acc; [by left|].
    simpl. destruct (decide (resolve (staged wd x) = k)).
    - right. done.
    - destruct (IH acc) as [Heq|Hall]; [by left|]. right. intros acc'. apply Hall. }
  destruct (Hcases acc) as [Heq|Hall]; [by rewrite !Heq|apply Hall].
Qed.

Lemma copy_all_written wd l fs fs' k :
  truthy wd = true -> (forall a, In a l -> ~ inside wd (resolve a)) ->
  copy_all wd l fs = (Returned tt, fs') ->
  fs' !! k = written wd (fun a => fs !! resolve a) k (fs !! k) l.
Proof.
  intros Hwd. revert fs. induction l as [|x rest IH]; intros fs Hout Hc.
  - simpl in Hc. by injection Hc as <-.
  - simpl in Hc. destruct (shutil_copyfile x (staged wd x) fs) as [[[]|e] fs1] eqn:Hx; [|done].
    pose proof (shutil_copyfile_returned _ _ _ _ Hx) as (c & Hst & Hfs1 & _ & _).
    apply stat_file_lookup in Hst.
    rewrite (IH fs1 (fun a Ha => Hout a (or_intror Ha)) Hc). simpl.
    rewrite (written_ext wd (fun a => fs1 !! resolve a) (fun a => fs !! resolve a)).
    + f_equal. subst fs1. case_decide as Hk.
      * subst k. by rewrite lookup_insert_eq.
      * by rewrite lookup_insert_ne.
    + intros a Ha. subst fs1. rewrite lookup_insert_ne; [done|].
      intros Heq. apply (outside_not_staged wd a x Hwd); [|done].
      apply Hout. by right.
Qed.

Lemma copy_all_dirs wd l fs fs' k :
  copy_all wd l fs = (Returned tt, fs') ->
  lookup_node fs k = Some Dir -> lookup_node fs' k = Some Dir.
Proof.
  revert fs. induction l as [|x rest IH]; intros fs Hc Hd.
  - simpl in Hc. by injection Hc as <-.
  - simpl in Hc. destruct (shutil_copyfile x (staged wd x) fs) as [[[]|e] fs1] eqn:Hx; [|done].
    apply (IH fs1 Hc).
    pose proof (shutil_copyfile_returned _ _ _ _ Hx) as (c & _ & -> & _ & _).
    pose proof (shutil_copyfile_returned_parent _ _ _ _ Hx) as (_ & Hancx & Hndx & _).
    rewrite lookup_node_insert_file by done. case_decide; [|done]. subst. by destruct Hndx.
Qed.

Lemma copy_all_dirs_inv wd l fs fs' k :
  copy_all wd l fs = (Returned tt, fs') ->
  lookup_node fs' k = Some Dir -> lookup_node fs k = Some Dir.
Proof.
  revert fs. induction l as [|x rest IH]; intros fs Hc Hd.
  - simpl in Hc. by injection Hc as <-.
  - simpl in Hc. destruct (shutil_copyfile x (staged wd x) fs) as [[[]|e] fs1] eqn:Hx; [|done].
    specialize (IH fs1 Hc Hd).
    pose proof (shutil_copyfile_returned _ _ _ _ Hx) as (c & _ & -> & _ & _).
    pose proof (shutil_copyfile_returned_parent _ _ _ _ Hx) as (_ & Hancx & _ & _).
    rewrite lookup_node_insert_file in IH by done. by case_decide.
Qed.

Lemma copy_all_parents wd l fs fs' a :
  copy_all wd l fs = (Returned tt, fs') -> In a l ->
  lookup_node fs' (parent (resolve (staged wd a))) = Some Dir.
Proof.
  revert fs. induction l as [|x rest IH]; intros fs Hc Hin; [done|].
  pose proof Hc as Hc0.
  simpl in Hc. destruct (shutil_copyfile x (staged wd x) fs) as [[[]|e] fs1] eqn:Hx; [|done].
  destruct Hin as [->|Hin]; [|by apply (IH fs1)].
  pose proof (shutil_copyfile_returned_parent _ _ _ _ Hx) as (_ & _ & _ & Hpar).
  by apply (copy_all_dirs _ _ _ _ _ Hc0).
Qed.

(** X8.  Staging again.  When the candidates lie outside the working
    directory and a staging has gone through, staging the same inputs
    again into the same directory goes through as well, with the same
    copies and staged paths, and leaves the file system exactly as the
    first staging left it: the copies overwrite the staged files with the
    content they already have. *)
Theorem restaging_is_idempotent (args : Args) wd fs paths :
  truthy wd = true ->
  (forall a, In a (candidates args) -> ~ inside wd (resolve a)) ->
  result (stage_inputs args wd fs) = Returned paths ->
  let fs1 := final_fs (stage_inputs args wd fs) in
  stage_inputs args wd fs1 = (Returned paths, fs1, planned_copies wd args).
Proof.
  intros Hwd Hout Hres fs1.
  pose proof (stage_inputs_result _ _ _ _ Hres) as Hpaths.
  pose proof (stage_inputs_files _ _ _ _ Hres) as Hfiles. fold fs1 in Hfiles.
  apply stage_inputs_copy_all in Hres as [Hcopy _]. fold fs1 in Hcopy.
  assert (Hsrc : forall a, In a (candidates args) -> fs1 !! resolve a = fs !! resolve a).
  { intros a Ha.
    pose proof (copy_all_frame wd (candidates args) fs (resolve a)) as Hf.
    rewrite Hcopy in Hf. apply Hf. intros x _ Heq.
    by apply (outside_not_staged wd a x Hwd (Hout a Ha)). }
  assert (Hgood : forall a, In a (candidates args) -> copyable wd a fs1).
  { intros a Ha. repeat split.
    - assert (Hfirst : exists c, stat a fs = Some (File c)).
      { destruct (stat a fs) as [[c|]|] eqn:Hst; [eauto|exfalso..].
        all: destruct (copy_all_raises wd (candidates args) a fs Hwd Ha) as (e & fs' & He);
          [apply shutil_copyfile_not_file; intros c0; congruence|congruence]. }
      destruct Hfirst as [c Hc]. exists c. rewrite <- Hc. apply stat_frame. by apply Hsrc.
    - by apply Hout.
    - destruct (Hfiles a Ha) as [c Hc]. apply stat_lookup in Hc as [_ Hc]. congruence.
    - by apply (copy_all_parents wd (candidates args) fs). }
  destruct (copy_all_returns wd (candidates args) fs1 Hwd Hgood) as [fs2 Hcopy2].
  assert (Hfs2 : fs2 = fs1).
  { apply map_eq. intros k.
    rewrite (copy_all_written wd _ _ _ k Hwd Hout Hcopy2).
    rewrite (written_ext wd _ (fun a => fs !! resolve a)) by exact Hsrc.
    rewrite !(copy_all_written wd _ _ _ k Hwd Hout Hcopy).
    apply written_again. }
  subst fs2.
  destruct (result (stage_inputs args wd fs1)) as [paths2|e] eqn:Hres2.
  - pose proof (stage_inputs_result _ _ _ _ Hres2) as Hpaths2.
    apply stage_inputs_copy_all in Hres2 as Hboth. destruct Hboth as [Hc2 Hlog2].
    rewrite Hcopy2 in Hc2. injection Hc2 as Hfin.
    destruct (stage_inputs args wd fs1) as [[r f] l].
    unfold result, final_fs, log in *. simpl in *. subst. done.
  - apply stage_inputs_raised_copy_all in Hres2 as [fs' He]. congruence.
Qed.

(** ** Reaching the raster steps *)

Lemma written_none wd read k acc l :
  (forall a, In a l -> resolve (staged wd a) <> k) -> written wd read k acc l = acc.
Proof.
  revert acc. induction l as [|x rest IH]; intros acc Hall; [done|].
  cbn [written foldl]. rewrite decide_False by (apply Hall; by left).
  apply IH. intros a Ha. apply Hall. by right.
Qed.

Lemma written_unique wd read acc l a :
  NoDup (map (fun a => resolve (staged wd a)) l) -> In a l ->
  written wd read (resolve (staged wd a)) acc l = read a.
Proof.
  revert acc. induction l as [|x rest IH]; intros acc Hnd Hin; [done|].
  cbn [map] in Hnd. apply NoDup_cons in Hnd as [Hx Hnd].
  change (written wd read (resolve (staged wd a)) acc (x :: rest))
    with (written wd read (resolve (staged wd a))
            (if decide (resolve (staged wd x) = resolve (staged wd a)) then read x else acc) rest).
  destruct Hin as [->|Hin]; [|by apply IH].
  rewrite decide_True by done. apply written_none.
  intros b Hb Heq. apply Hx. rewrite <- Heq. apply list_elem_of_In.
  apply in_map_iff. by exists b.
Qed.

(** X19.  What staging leaves behind.  When the inputs lie outside the
    working directory and no two of them are staged at the same path, a
    staging that returns has made plain copies: every input is a regular
    file, its staged path holds the same content, the input itself is as
    it was, and no entry other than the staged paths has changed. *)
Theorem staged_copies_are_faithful (args : Args) wd fs paths :
  truthy wd = true ->
  (forall a, In a (candidates args) -> ~ inside wd (resolve a)) ->
  NoDup (map (fun a => resolve (staged wd a)) (candidates args)) ->
  result (stage_inputs args wd fs) = Returned paths ->
  let fs1 := final_fs (stage_inputs args wd fs) in
  (forall a, In a (candidates args) ->
     exists c, stat a fs = Some (File c) /\ stat (staged wd a) fs1 = Some (File c) /\
               stat a fs1 = Some (File c)) /\
  (forall k, (forall a, In a (candidates args) -> k <> resolve (staged wd a)) ->
             fs1 !! k = fs !! k).
Proof.
  intros Hwd Hout Hnd Hres fs1.
  pose proof (stage_inputs_files _ _ _ _ Hres) as Hfiles. fold fs1 in Hfiles.
  apply stage_inputs_copy_all in Hres as [Hcopy _]. fold fs1 in Hcopy.
  split.
  - intros a Ha.
    assert (Hfirst : exists c, stat a fs = Some (File c)).
    { destruct (stat a fs) as [[c|]|] eqn:Hst; [eauto|exfalso..].
      all: destruct (copy_all_raises wd (candidates args) a fs Hwd Ha) as (e & fs' & He);
        [apply shutil_copyfile_not_file; intros c0; congruence|congruence]. }
    destruct Hfirst as [c Hc]. exists c. split; [done|].
    pose proof (stat_file_lookup _ _ _ Hc) as Hl.
    split.
    + destruct (Hfiles a Ha) as [c1 Hc1]. rewrite Hc1. do 2 f_equal.
      apply stat_file_lookup in Hc1.
      rewrite (copy_all_written wd _ _ _ _ Hwd Hout Hcopy) in Hc1.
      rewrite written_unique in Hc1 by done. congruence.
    + rewrite <- Hc. apply stat_frame.
      rewrite (copy_all_written wd _ _ _ _ Hwd Hout Hcopy).
      apply written_none. intros b Hb Heq.
      by apply (outside_not_staged wd a b Hwd (Hout a Ha)).
  - intros k Hk. rewrite (copy_all_written wd _ _ _ _ Hwd Hout Hcopy).
    apply written_none. intros b Hb Heq. by apply (Hk b Hb).
Qed.

Section RasterSteps.
Context `{Collaborators}.

(** X9.  When the script's own steps go through.  Suppose the directory
    step returns and the working directory is no regular file; every
    supplied candidate is a regular file outside the working directory
    with a proper base name, and no directory sits at its staged path;
    the config module returns a document and a plain file name at which
    no directory sits.  Then the copies and the config file succeed: the
    run makes the calls of the directory step, all planned copies, the
    three config calls and the write, and then asks for the coordinate
    system of the reference DSM.  What happens next is up to the raster
    modules. *)
Theorem staging_and_config_succeed now (args : Args) fs tmpl doc name :
  let r := main now args fs in
  let wd := working_dir_name now args in
  result (prepare_working_dir now args fs) = Returned wd ->
  (forall c, stat wd fs <> Some (File c)) ->
  (forall a, In a (candidates args) ->
     (exists c, stat a fs = Some (File c)) /\ ~ inside wd (resolve a) /\
     is_component (basename a) = true /\ stat (staged wd a) fs <> Some Dir) ->
  config_get_template = Returned tmpl ->
  config_populate_template tmpl (ref_prefix args) (staged wd (dsm args)) (staged wd (cls args))
    (staged_opt wd (mtl args)) (staged_opt wd (dtm args)) = Returned doc ->
  config_get_filename (staged wd (dsm args)) (staged wd (cls args)) = Returned name ->
  no_sep name -> is_component name = true -> stat (join wd name) fs <> Some Dir ->
  exists answer rest,
    log r = log (prepare_working_dir now args fs) ++ planned_copies wd args ++
            [GetTemplate;
             PopulateTemplate tmpl (ref_prefix args) (staged wd (dsm args)) (staged wd (cls args))
               (staged_opt wd (mtl args)) (staged_opt wd (dtm args));
             GetFilename (staged wd (dsm args)) (staged wd (cls args));
             WriteFile (join wd name) doc;
             GetCoordinateSystem (reference_dsm args) answer] ++ rest.
Proof.
  intros r wd Hprep Hnf Hcand Htmpl Hdoc Hname Hns Hcomp Hcfg. subst r.
  pose proof (working_dir_name_truthy now args) as Hwd. fold wd in Hwd.
  set (fs0 := final_fs (prepare_working_dir now args fs)).
  assert (Hdir : lookup_node fs0 (resolve wd) = Some Dir).
  { destruct (prepare_working_dir_exists now args fs wd Hprep) as [n Hn]. fold fs0 in Hn.
    destruct n as [c|]; [|by apply stat_lookup in Hn as [_ Hn]].
    exfalso. apply (Hnf c). eapply stat_no_file; [apply prepare_working_dir_no_file|exact Hn]. }
  assert (Hstaged_key : forall a, is_component (basename a) = true ->
            resolve (staged wd a) = resolve wd ++ [basename a]).
  { intros a Ha. by rewrite resolve_staged, components_basename, Ha. }
  assert (Hgood : forall a, In a (candidates args) -> copyable wd a fs0).
  { intros a Ha. destruct (Hcand a Ha) as ([c Hc] & Hout & Hbn & Hnd). repeat split.
    - exists c. apply stat_lookup in Hc as [Ht Hc]. unfold stat. rewrite Ht, <- Hc.
      apply lookup_node_frame.
      pose proof (prepare_working_dir_keeps_all now args fs (resolve a)) as Hk.
      unfold lookup_node in Hc. destruct (is_anchor (resolve a)); [done|].
      rewrite Hc. by apply Hk.
    - done.
    - unfold fs0. rewrite prepare_working_dir_frame.
      + intros Hd. apply Hnd. unfold stat.
        by rewrite (join_truthy wd _ Hwd : truthy (staged wd a) = true).
      + fold wd. rewrite Hstaged_key by done. apply snoc_not_prefix.
    - rewrite Hstaged_key by done. by rewrite parent_snoc. }
  destruct (copy_all_returns wd (candidates args) fs0 Hwd Hgood) as [fs1 Hcopy].
  assert (Hstage : exists paths, result (stage_inputs args wd fs0) = Returned paths).
  { destruct (result (stage_inputs args wd fs0)) as [paths|e] eqn:Hr; [eauto|].
    apply stage_inputs_raised_copy_all in Hr as [fs' He]. congruence. }
  destruct Hstage as [paths Hstage].
  pose proof (stage_inputs_result _ _ _ _ Hstage) as ->.
  pose proof (stage_inputs_copy_all _ _ _ _ Hstage) as [Hcopy' Hlog1].
  rewrite Hcopy in Hcopy'. injection Hcopy' as Hfs1.
  assert (Hkey : resolve (join wd name) = resolve wd ++ [name]).
  { rewrite resolve_join by (try done; by apply no_sep_relative). by rewrite no_sep_components. }
  assert (Hwrite : write_node (join wd name) (Bytes doc) fs1 =
                   (Returned tt, <[resolve (join wd name) := File (Bytes doc)]> fs1)).
  { apply write_node_succeeds.
    - by apply join_truthy.
    - intros Hd. apply (copy_all_dirs_inv _ _ _ _ _ Hcopy) in Hd.
      unfold fs0 in Hd. rewrite prepare_working_dir_frame in Hd.
      + apply Hcfg. unfold stat. by rewrite join_truthy.
      + fold wd. rewrite Hkey. apply snoc_not_prefix.
    - rewrite Hkey, parent_snoc. by apply (copy_all_dirs _ _ _ _ _ Hcopy). }
  assert (Hgen : generate_config_file wd (ref_prefix args) (staged wd (dsm args))
                   (staged wd (cls args)) (staged_opt wd (mtl args)) (staged_opt wd (dtm args)) fs1 =
                 (Returned (join wd name), <[resolve (join wd name) := File (Bytes doc)]> fs1,
                  [GetTemplate;
                   PopulateTemplate tmpl (ref_prefix args) (staged wd (dsm args)) (staged wd (cls args))
                     (staged_opt wd (mtl args)) (staged_opt wd (dtm args));
                   GetFilename (staged wd (dsm args)) (staged wd (cls args));
                   WriteFile (join wd name) doc])).
  { cbv [generate_config_file bind call call_pure ret open_write].
    rewrite Htmpl, Hdoc, Hname, Hwrite. done. }
  unfold main.
  rewrite (bind_log_returned _ _ _ _ Hprep). cbv zeta. fold fs0.
  rewrite (bind_log_returned _ _ _ _ Hstage), Hlog1, <- Hfs1. cbv beta iota.
  rewrite (bind_log_returned _ _ _ (join wd name)) by (by rewrite Hgen).
  rewrite Hgen. unfold log at 2. cbn [snd].
  match goal with
  | |- context [log (bind ?m ?f ?s)] =>
      destruct (bind_log_prefix m f s) as [l1 Hl1]; rewrite Hl1
  end.
  unfold normalize_coordinates at 1.
  match goal with
  | |- context [log (bind ?m ?f ?s)] =>
      destruct (bind_log_prefix m f s) as [l2 Hl2]; rewrite Hl2
  end.
  unfold log at 2. cbn [snd].
  eexists _, (l2 ++ l1). unfold reference_dsm.
  rewrite <- !app_assoc. simpl. reflexivity.
Qed.

(** X10.  The engine only runs on a prepared directory.  Whenever the
    engine is called in a run, whether it then raises or not, every step
    before it has gone through: all planned copies were made, one config
    file was written and is the one passed as [--config], the coordinate
    system of the reference DSM was resolved once, every staged candidate
    was reprojected into it, and the staged DSM was converted to
    Float32. *)
Theorem engine_runs_on_prepared_directory now args fs argv :
  let r := main now args fs in
  let wd := working_dir_name now args in
  In (Core3dMetrics argv) (log r) ->
  List.filter is_copy (log r) = planned_copies wd args /\
  exists cfg doc proj4,
    argv = engine_argv cfg (ref_dir args) wd /\
    List.filter is_write (log r) = [WriteFile cfg doc] /\
    crs_answers (log r) = [(reference_dsm args, Returned proj4)] /\
    List.filter is_reprojection (log r) = planned_reprojections wd proj4 args /\
    List.filter is_float32 (log r) = [ConvertFloat32 (staged wd (dsm args))].
Proof.
  intros r wd0. subst r wd0.
  cut (Forall (fun e => match e with
                        | Core3dMetrics argv =>
  List.filter is_copy (log (main now args fs)) = planned_copies (working_dir_name now args) args /\
  exists cfg doc proj4,
    argv = engine_argv cfg (ref_dir args) (working_dir_name now args) /\
    List.filter is_write (log (main now args fs)) = [WriteFile cfg doc] /\
    crs_answers (log (main now args fs)) = [(reference_dsm args, Returned proj4)] /\
    List.filter is_reprojection (log (main now args fs)) =
      planned_reprojections (working_dir_name now args) proj4 args /\
    List.filter is_float32 (log (main now args fs)) =
      [ConvertFloat32 (staged (working_dir_name now args) (dsm args))]
                        | _ => True
                        end) (log (main now args fs))).
  { intros Hall Hin. rewrite Forall_forall in Hall.
    apply (Hall (Core3dMetrics argv)). by apply list_elem_of_In. }
  enter_main now args fs.
  all: repeat (constructor; [first [exact I | split; [reflexivity|do 3 eexists; repeat split; reflexivity]]|]);
    constructor.
Qed.

(** X11.  When the coordinate system cannot be resolved.  If the resolver
    raises on the reference DSM, the run ends with that exception and
    this call is its last: the config file was written before, but no
    raster has been reprojected or converted and the engine was not
    called. *)
Theorem crs_failure_stops_the_run now args fs p e :
  let r := main now args fs in
  In (GetCoordinateSystem p (Raised e)) (log r) ->
  p = reference_dsm args /\ result r = Raised e /\
  last (log r) = Some (GetCoordinateSystem p (Raised e)) /\
  (exists cfg doc, In (WriteFile cfg doc) (log r)) /\
  Forall (fun ev => mutated_path ev = None /\ is_engine ev = false) (log r).
Proof.
  intros r. subst r.
  cut (Forall (fun ev => match ev with
                         | GetCoordinateSystem p (Raised e) =>
  p = reference_dsm args /\ result (main now args fs) = Raised e /\
  last (log (main now args fs)) = Some (GetCoordinateSystem p (Raised e)) /\
  (exists cfg doc, In (WriteFile cfg doc) (log (main now args fs))) /\
  Forall (fun ev => mutated_path ev = None /\ is_engine ev = false) (log (main now args fs))
                         | _ => True
                         end) (log (main now args fs))).
  { intros Hall Hin. rewrite Forall_forall in Hall.
    apply (Hall (GetCoordinateSystem p (Raised e))). by apply list_elem_of_In. }
  enter_main now args fs.
  all: repeat (constructor;
               [first [exact I
                      | split; [reflexivity|split; [reflexivity|split; [reflexivity|
                          split; [do 2 eexists; find_event|repeat constructor]]]]]|]);
    constructor.
Qed.

End RasterSteps.

(** ** The command line *)

Lemma parse_optional_no_dash v : String.prefix "-" v = false -> parse_optional v = NotOptional.
Proof.
  intros Hv. unfold parse_optional. destruct (truthy v); [|done]. by rewrite Hv.
Qed.

Lemma no_dash_argument_like v : String.prefix "-" v = false -> argument_like v.
Proof.
  intros Hv. split; [|by apply parse_optional_no_dash].
  intros ->. done.
Qed.

Lemma parse_optional_option_string d :
  parse_optional (option_string d) =
    OptionTuple (Some (StoreAction d (is_required d))) (option_string d) None.
Proof. by destruct d. Qed.

Lemma scan_words pairs rest :
  Forall (fun x => argument_like (snd x)) pairs ->
  scan (words pairs ++ rest) =
    match scan rest with
    | Pattern parts => Pattern (parts_of pairs ++ parts)
    | r => r
    end.
Proof.
  induction 1 as [|[d v] pairs [Hv1 Hv2] _ IH].
  - simpl. by destruct (scan rest).
  - assert (Hd : String.eqb (option_string d) "--" = false) by (by destruct d).
    simpl in Hv1, Hv2. apply String.eqb_neq in Hv1.
    change (words ((d, v) :: pairs) ++ rest)
      with (option_string d :: v :: (words pairs ++ rest)).
    cbn [scan]. rewrite Hd, parse_optional_option_string, Hv1, Hv2, IH.
    by destruct (scan rest).
Qed.

Lemma consume_parts_of pairs parts ns extras :
  consume (parts_of pairs ++ parts) ns extras = consume parts (store ns pairs) extras.
Proof.
  revert ns. induction pairs as [|[d v] pairs IH]; intros ns; [done|].
  simpl. apply IH.
Qed.

Lemma store_given pairs ns d o :
  ns d = Str <$> o ->
  store ns pairs d =
    Str <$> foldl (fun acc x => if decide (fst x = d) then Some (snd x) else acc) o pairs.
Proof.
  revert ns o. induction pairs as [|[d' v] pairs IH]; intros ns o Hns; [done|].
  simpl. apply IH. unfold setattr.
  repeat case_decide; simpl; congruence.
Qed.

Lemma store_defaults pairs d : store defaults pairs d = Str <$> given d pairs.
Proof. by apply store_given. Qed.

Lemma parse_args_words pairs :
  Forall (fun x => argument_like (snd x)) pairs ->
  parse_args (words pairs) =
    match given Ref_dir pairs, given Ref_prefix pairs, given Dsm pairs, given Cls pairs with
    | Some r, Some p, Some d, Some c =>
        Parsed {| output_dir := given Output_dir pairs; ref_dir := r; ref_prefix := p;
                  dsm := d; cls := c; mtl := given Mtl pairs; dtm := given Dtm pairs |}
    | _, _, _, _ => SystemExit 2
    end.
Proof.
  intros Hall. unfold parse_args.
  rewrite <- (app_nil_r (words pairs)), (scan_words _ _ Hall). simpl scan. cbv iota.
  rewrite consume_parts_of. simpl consume.
  pose proof (store_defaults pairs) as Hns.
  set (ns := store defaults pairs) in *. clearbody ns.
  unfold finish, holds_list. simpl. rewrite !(Hns _).
  destruct (given Ref_dir pairs) eqn:E1, (given Ref_prefix pairs) eqn:E2,
    (given Dsm pairs) eqn:E3, (given Cls pairs) eqn:E4; try reflexivity.
  cbn. rewrite !(Hns _), E1, E2, E3, E4. cbn.
  destruct (given Output_dir pairs), (given Mtl pairs), (given Dtm pairs); reflexivity.
Qed.

(** X12.  Options in any order.  For a command line made of options and
    their values, each value a word that the parser reads as an argument
    (any word that does not start with a dash is one), the result depends
    only on the value given last for each option: when the four required
    options were given, the namespace holds the last value of each option
    and [None] for [--output-dir], [--mtl] or [--dtm] when absent;
    otherwise the parser exits with status 2.  The order of the options
    does not matter, and a repeated option overrides the earlier one. *)
Theorem options_in_any_order pairs :
  Forall (fun x => argument_like (snd x)) pairs ->
  (forall v, String.prefix "-" v = false -> argument_like v) /\
  parse_args (words pairs) =
    match given Ref_dir pairs, given Ref_prefix pairs, given Dsm pairs, given Cls pairs with
    | Some r, Some p, Some d, Some c =>
        Parsed {| output_dir := given Output_dir pairs; ref_dir := r; ref_prefix := p;
                  dsm := d; cls := c; mtl := given Mtl pairs; dtm := given Dtm pairs |}
    | _, _, _, _ => SystemExit 2
    end.
Proof.
  intros Hall. split; [apply no_dash_argument_like|by apply parse_args_words].
Qed.

Section RoundTrip.
Context `{Collaborators}.

(** X13.  Round trip of the command line.  Spelling out parsed arguments
    as [--output-dir d --ref-dir r --ref-prefix p --dsm x --cls y --mtl m
    --dtm t], leaving out the options that are [None], and parsing that
    gives the arguments back, as long as no value starts with a dash (an
    empty value is fine); [main] on these argument strings is the
    pipeline on the arguments. *)
Theorem command_line_round_trip (a : Args) now fs :
  Forall (fun v => String.prefix "-" v = false) (ref_dir a :: ref_prefix a :: candidates a) ->
  match output_dir a with Some d => String.prefix "-" d = false | None => True end ->
  parse_args (command_line a) = Parsed a /\
  main_argv now (command_line a) fs = Runs (main now a fs).
Proof.
  intros Hall Hout.
  assert (Hp : parse_args (command_line a) = Parsed a).
  { unfold command_line. rewrite parse_args_words.
    - destruct a as [o r p d c m t]. simpl.
      destruct o, m, t; reflexivity.
    - unfold candidates, supplied in Hall.
      destruct a as [o r p d c m t]. simpl in *.
      repeat match goal with
        | H : Forall _ (_ :: _) |- _ => apply Forall_cons in H as [? H]
        end.
      destruct o, m, t; simpl in *;
      repeat match goal with
        | H : Forall _ (_ :: _) |- _ => apply Forall_cons in H as [? H]
        end;
      repeat (apply Forall_cons; split; [by apply no_dash_argument_like|]); apply Forall_nil; done. }
  split; [done|]. unfold main_argv. by rewrite Hp.
Qed.

End RoundTrip.

(** *** Which argument strings select an option *)

Lemma prefix_prefixes s t : String.prefix s t = true -> In s (prefixes t).
Proof.
  revert s. induction t as [|c t IH]; intros [|a s]; cbn [String.prefix prefixes];
    try done; try (intros _; by left).
  destruct (ascii_dec a c) as [->|]; [|done]. intros Hp.
  right. apply in_map. by apply IH.
Qed.

Lemma prefix_refl s : String.prefix s s = true.
Proof. induction s as [|c s IH]; [done|]. cbn [String.prefix]. by destruct (ascii_dec c c). Qed.

Lemma prefix_app_l p e : String.prefix p (p +:+ e) = true.
Proof.
  induction p as [|c p IH]; [by destruct e|].
  rewrite append_cons. cbn [String.prefix]. by destruct (ascii_dec c c).
Qed.

Lemma prefix_trans a b c :
  String.prefix a b = true -> String.prefix b c = true -> String.prefix a c = true.
Proof.
  revert a b. induction c as [|x c IH]; intros [|y a] [|z b]; cbn [String.prefix]; try done.
  destruct (ascii_dec y z) as [->|]; [|done].
  destruct (ascii_dec z x) as [->|]; [|done]. apply IH.
Qed.

Lemma find_action_In s a : find_action s = Some a -> In (s, a) option_string_actions.
Proof.
  unfold find_action. destruct (List.find _ _) as [[s' a']|] eqn:Hf; [|done].
  cbn [fmap option_fmap option_map snd]. intros [= ->]. apply find_some in Hf as [Hin Heq].
  cbn [fst] in Heq. apply String.eqb_eq in Heq. by subst.
Qed.

Lemma split_equals_spec s p e : split_equals s = Some (p, e) -> s = p +:+ "=" +:+ e.
Proof.
  revert p. induction s as [|c s IH]; intros p; cbn [split_equals]; [done|].
  destruct (Ascii.eqb_spec c "=") as [->|Hc].
  - by intros [= <- <-].
  - destruct (split_equals s) as [[a b]|]; [|done]. intros [= <- <-].
    by rewrite (IH a eq_refl).
Qed.

Lemma eqb_two_chars f c0 c1 :
  String.length f <> 2 -> String.eqb f (String c0 (String c1 EmptyString)) = false.
Proof. intros Hl. apply String.eqb_neq. intros ->. by apply Hl. Qed.

Lemma prefix_single_dash c0 c1 tail f :
  c1 <> "-"%char -> String.prefix (String c0 (String c1 tail)) (String "-" (String "-" f)) = false.
Proof.
  intros Hc. cbn [String.prefix].
  destruct (ascii_dec c0 "-"); [|done]. by destruct (ascii_dec c1 "-").
Qed.

(** A single-dash argument string only ever selects the help action. *)
Lemma single_dash_tuples c0 c1 tail a os e :
  c1 <> "-"%char ->
  In (a, os, e) (get_option_tuples (String c0 (String c1 tail))) -> a = HelpAction.
Proof.
  intros Hc. unfold get_option_tuples. destruct (Ascii.eqb_spec c1 "-") as [|_]; [done|].
  cbv zeta. intros Hin. apply in_flat_map in Hin as ([f a'] & Hf & Hin).
  cbn [fst snd] in Hin.
  assert (Hhelp : a' = HelpAction -> a = HelpAction).
  { intros ->. destruct (String.eqb _ _); [by destruct Hin as [[= <- _ _]|[]]|].
    destruct (String.prefix _ _); [by destruct Hin as [[= <- _ _]|[]]|done]. }
  unfold option_string_actions in Hf. cbn [In] in Hf.
  destruct Hf as [[= <- <-]|Hf]; [by apply Hhelp|].
  destruct Hf as [[= <- <-]|Hf]; [by apply Hhelp|].
  exfalso.
  repeat (destruct Hf as [[= <- <-]|Hf];
          [rewrite eqb_two_chars, prefix_single_dash in Hin by done; done|]).
  done.
Qed.

(** The prefixes of a long option that select it and no other option
    start with its shortest spelling. *)
Lemma unambiguous_prefix d p :
  String.prefix p (option_string d) = true ->
  matching p = [option_string d] ->
  String.prefix (shortest d) p = true.
Proof.
  intros Hp Hm. apply prefix_prefixes in Hp.
  destruct d; cbn [option_string prefixes map In] in Hp;
    repeat (destruct Hp as [<-|Hp]; [first [reflexivity | by vm_compute in Hm]|]); done.
Qed.

Lemma shortest_prefix d : String.prefix (shortest d) (option_string d) = true.
Proof. by destruct d. Qed.

Lemma store_action_In f d r :
  In (f, StoreAction d r) option_string_actions -> f = option_string d /\ r = is_required d.
Proof.
  unfold option_string_actions. cbn [In].
  intros Hin.
  repeat (destruct Hin as [Hin|Hin];
          [first [discriminate Hin | injection Hin as <- <- <-; done]|]).
  done.
Qed.

Lemma double_dash_tuples op (ea : option string) (l : list (string * action)) :
  map (fun t : action * string * option string => snd (fst t))
      (flat_map (fun x => if String.prefix op (fst x) then [(snd x, fst x, ea)] else []) l) =
  List.filter (String.prefix op) (map fst l).
Proof.
  induction l as [|[f a] l IH]; [done|]. cbn [flat_map map List.filter fst snd].
  destruct (String.prefix op f); cbn [app map fst snd]; by rewrite IH.
Qed.

(** An argument string that selects a store action starts with the
    shortest spelling of its option. *)
Lemma parse_optional_store s d r os e :
  parse_optional s = OptionTuple (Some (StoreAction d r)) os e ->
  String.prefix (shortest d) s = true.
Proof.
  unfold parse_optional. destruct (truthy s); [|done]. cbn [negb].
  destruct (String.prefix "-" s) eqn:Hdash; [|done]. cbn [negb].
  destruct (find_action s) as [a|] eqn:Hfind.
  { intros [= -> <- <-]. apply find_action_In, store_action_In in Hfind as [-> _].
    apply shortest_prefix. }
  destruct (String.length s =? 1)%nat eqn:Hlen; [done|].
  assert (Habbrev : forall op (ea : option string),
            ((exists x, split_equals s = Some (op, x)) \/ op = s) ->
            (match get_option_tuples s with
             | [(a, option_string, explicit_arg)] => OptionTuple (Some a) option_string explicit_arg
             | _ :: _ :: _ => AmbiguousOption
             | [] =>
                 if has_non_ascii s then NotModelled
                 else if negative_number s then NotOptional
                 else if contains " " s then NotOptional
                 else OptionTuple None s None
             end = OptionTuple (Some (StoreAction d r)) os e) ->
            (get_option_tuples s =
               flat_map (fun x => if String.prefix op (fst x) then [(snd x, fst x, ea)] else [])
                        option_string_actions \/
             exists c0 c1 tail, s = String c0 (String c1 tail) /\ c1 <> "-"%char) ->
            String.prefix (shortest d) s = true).
  { intros op ea Hop Hres Hshape.
    destruct (get_option_tuples s) as [|[[a1 os1] e1] [|? ?]] eqn:Hfm; [| |done].
    { repeat case_match; done. }
    injection Hres as ? ? ?; subst a1 os1 e1.
    destruct Hshape as [Hflat|(c0 & c1 & tail & -> & Hc1)].
    2:{ pose proof (single_dash_tuples c0 c1 tail (StoreAction d r) os e Hc1) as Hh.
        rewrite Hfm in Hh. discriminate Hh. by left. }
    assert (Hin : In (StoreAction d r, os, e)
                     (flat_map (fun x => if String.prefix op (fst x) then [(snd x, fst x, ea)] else [])
                        option_string_actions)) by (rewrite <- Hflat; by left).
    apply in_flat_map in Hin as ([f a'] & Hf & Hin). cbn [fst snd] in Hin.
    destruct (String.prefix op f) eqn:Hp; [|done]. destruct Hin as [[= -> -> _]|[]].
    apply store_action_In in Hf as [-> _].
    assert (Hm : matching op = [option_string d]).
    { unfold matching. rewrite <- (double_dash_tuples op ea), <- Hflat. done. }
    apply (prefix_trans _ op); [by apply unambiguous_prefix|].
    destruct Hop as [[x Hsplit]| ->]; [|apply prefix_refl].
    apply split_equals_spec in Hsplit as ->. apply prefix_app_l. }
  assert (Hshape : forall op ea,
            (match split_equals s with Some (a, b) => (a, Some b) | None => (s, None) end) = (op, ea) ->
            get_option_tuples s =
               flat_map (fun x => if String.prefix op (fst x) then [(snd x, fst x, ea)] else [])
                        option_string_actions \/
             exists c0 c1 tail, s = String c0 (String c1 tail) /\ c1 <> "-"%char).
  { intros op ea Hop. destruct s as [|c0 [|c1 tail]]; [done|by cbn in Hlen|].
    destruct (Ascii.eqb_spec c1 "-") as [->|Hc1]; [|right; eauto].
    left. unfold get_option_tuples. cbn [Ascii.eqb Bool.eqb]. cbv iota.
    by rewrite Hop. }
  destruct (split_equals s) as [[p x]|] eqn:Hsplit.
  - destruct (find_action p) as [a|] eqn:Hfp.
    { intros [= -> <- <-]. apply find_action_In, store_action_In in Hfp as [-> _].
      apply split_equals_spec in Hsplit as ->.
      apply (prefix_trans _ (option_string d)); [apply shortest_prefix|apply prefix_app_l]. }
    intros Hres. apply (Habbrev p (Some x)); [left; by exists x|done|by apply Hshape].
  - intros Hres. apply (Habbrev s None); [by right|done|by apply Hshape].
Qed.

(** *** The two loops *)

Lemma scan_parts args parts :
  scan args = Pattern parts ->
  Forall (fun x => In (fst x) args /\
                   forall a os e, snd x = LetterO a os e ->
                                  parse_optional (fst x) = OptionTuple a os e)
         parts.
Proof.
  revert parts. induction args as [|s args IH]; intros parts; cbn [scan].
  - intros [= <-]. constructor.
  - destruct (String.eqb s "--").
    { intros [= <-]. constructor; [split; [by left|done]|].
      apply Forall_map. apply Forall_forall. intros x Hx. split; [|done].
      right. by apply list_elem_of_In. }
    destruct (parse_optional s) as [|a os e| |] eqn:Hp; [| |done..].
    + destruct (scan args) as [ps| |]; [|done..]. intros [= <-].
      constructor; [split; [by left|done]|].
      eapply Forall_impl; [by apply IH|]. intros x [Hin Ho]. split; [by right|done].
    + destruct (scan args) as [ps| |]; [|done..]. intros [= <-].
      constructor; [split; [by left|by intros ? ? ? [= <- <- <-]]|].
      eapply Forall_impl; [by apply IH|]. intros x [Hin Ho]. split; [by right|done].
Qed.


Lemma scan_total args :
  Forall (fun s => parse_optional s <> AmbiguousOption /\ parse_optional s <> NotModelled) args ->
  exists parts, scan args = Pattern parts.
Proof.
  induction 1 as [|s args [H1 H2] _ [parts IH]]; cbn [scan]; [by eexists|].
  destruct (String.eqb s "--"); [by eexists|].
  destruct (parse_optional s); try done; rewrite IH; by eexists.
Qed.

Lemma finish_parsed ns extras ns' :
  finish ns extras = Parsed ns' ->
  ns' = ns /\ forall d, is_required d = true -> is_Some (ns d).
Proof.
  unfold finish, option_string_actions. cbn [List.filter snd].
  destruct (ns Ref_dir) eqn:E1, (ns Ref_prefix) eqn:E2, (ns Dsm) eqn:E3, (ns Cls) eqn:E4;
    try done.
  destruct extras; [|done]. intros [= <-]. split; [done|].
  intros [] Hd; try done; eauto.
Qed.


(** An attribute that is set after the second loop was set before, or
    some part of the pattern stores to it. *)
Lemma consume_sets n :
  forall parts ns extras ns', length parts <= n ->
    consume parts ns extras = Parsed ns' ->
    forall d, is_Some (ns' d) -> is_Some (ns d) \/ Exists (stores_to d) parts.
Proof.
  induction n as [|n IH]; intros parts ns extras ns' Hlen Hc d Hd.
  - destruct parts; [|cbn in Hlen; lia]. cbn in Hc.
    apply finish_parsed in Hc as [-> _]. by left.
  - destruct parts as [|[s l] rest].
    { cbn in Hc. apply finish_parsed in Hc as [-> _]. by left. }
    cbn [length] in Hlen. cbn [consume] in Hc.
    assert (Hnext : forall ns1 ex1, consume rest ns1 ex1 = Parsed ns' -> ns1 = ns ->
                      is_Some (ns d) \/ Exists (stores_to d) ((s, l) :: rest)).
    { intros ns1 ex1 Hc1 ->. destruct (IH rest ns ex1 ns' ltac:(lia) Hc1 d Hd); [by left|].
      right. by apply Exists_cons_tl. }
    destruct l as [| |[[|d' r]|] os [ea|]]; try discriminate Hc; try by eapply Hnext.
    + by repeat case_match.
    + destruct (IH rest _ extras ns' ltac:(lia) Hc d Hd) as [Hs|He].
      * unfold setattr in Hs. case_decide as Hdd; [|by left].
        subst. right. apply Exists_cons_hd. by exists r, os, (Some ea).
      * right. by apply Exists_cons_tl.
    + destruct rest as [|[v [| |]] rest']; try done.
      cbn [length] in Hlen.
      destruct (IH rest' _ extras ns' ltac:(lia) Hc d Hd) as [Hs|He].
      * unfold setattr in Hs. case_decide as Hdd; [|by left].
        subst. right. apply Exists_cons_hd. by exists r, os, None.
      * right. by do 2 apply Exists_cons_tl.
Qed.

Lemma consume_required n :
  forall parts ns extras ns', length parts <= n ->
    consume parts ns extras = Parsed ns' ->
    forall d, is_required d = true -> is_Some (ns' d).
Proof.
  induction n as [|n IH]; intros parts ns extras ns' Hlen Hc.
  - destruct parts; [|cbn in Hlen; lia]. cbn in Hc.
    by apply finish_parsed in Hc as [-> Hall].
  - destruct parts as [|[s l] rest].
    { cbn in Hc. by apply finish_parsed in Hc as [-> Hall]. }
    cbn [length] in Hlen. cbn [consume] in Hc.
    destruct l as [| |[[|d' r]|] os [ea|]]; try discriminate Hc;
      try (eapply IH; [|exact Hc]; lia).
    + by repeat case_match.
    + destruct rest as [|[v [| |]] rest']; try done.
      cbn [length] in Hlen. eapply IH; [|exact Hc]. lia.
Qed.

Lemma parse_args_parsed args a d :
  parse_args args = Parsed a -> is_required d = true ->
  exists s, In s args /\ String.prefix (shortest d) s = true.
Proof.
  unfold parse_args. destruct (scan args) as [parts| |] eqn:Hscan; [|done..].
  destruct (consume parts defaults []) as [ns| |] eqn:Hc; [|done..].
  intros _ Hd.
  pose proof (consume_required _ _ _ _ _ (le_n _) Hc d Hd) as Hset.
  destruct (consume_sets _ _ _ _ _ (le_n _) Hc d Hset) as [Hs|He].
  { by destruct Hs. }
  apply Exists_exists in He as ([s l] & Hin & r & os & e & Hl). cbn [snd] in Hl. subst l.
  pose proof (scan_parts _ _ Hscan) as Hall. rewrite Forall_forall in Hall.
  destruct (Hall _ Hin) as [Hs Hp]. cbn [fst snd] in *.
  exists s. split; [done|]. eapply parse_optional_store. by apply Hp.
Qed.




Lemma parse_optional_equals d v :
  parse_optional (option_string d +:+ "=" +:+ v) =
    OptionTuple (Some (StoreAction d (is_required d))) (option_string d) (Some v).
Proof. by destruct d. Qed.


Section CommandLine.
Context `{Collaborators}.

(** X14.  Required options.  [--ref-dir], [--ref-prefix], [--dsm] and
    [--cls] are required: a command line none of whose words starts with
    the shortest spelling of one of them ([--ref-d], [--ref-p], [--ds],
    [--c]) is never parsed into arguments, so the pipeline does not
    start: nothing is called and nothing on disk changes. *)
Theorem required_options_enforced now args fs d :
  is_required d = true ->
  Forall (fun s => String.prefix (shortest d) s = false) args ->
  (forall a, parse_args args <> Parsed a) /\ (forall r, main_argv now args fs <> Runs r).
Proof.
  intros Hd Hall.
  assert (Hno : forall a, parse_args args <> Parsed a).
  { intros a Ha. destruct (parse_args_parsed args a d Ha Hd) as (s & Hin & Hp).
    rewrite Forall_forall in Hall. apply list_elem_of_In in Hin.
    specialize (Hall s Hin). cbn beta in Hall. congruence. }
  split; [done|]. intros r. unfold main_argv.
  destruct (parse_args args) as [a| |] eqn:Hp; [|done..]. by destruct (Hno a).
Qed.

(** X15.  Help.  After any options with their values, [-h] or [--help]
    ends the script with status 0 before the pipeline starts, also when
    required options are missing and whatever follows, as long as no
    later word is an ambiguous abbreviation (which the parser rejects
    while it classifies the words, before it acts on any). *)
Theorem help_exits_before_anything_runs now fs pairs h rest :
  Forall (fun x => argument_like (snd x)) pairs ->
  In h ["-h"; "--help"] ->
  Forall (fun s => parse_optional s <> AmbiguousOption /\ parse_optional s <> NotModelled) rest ->
  parse_args (words pairs ++ h :: rest) = SystemExit 0 /\
  main_argv now (words pairs ++ h :: rest) fs = Exits 0.
Proof.
  intros Hpairs Hh Hrest.
  assert (Hp : parse_args (words pairs ++ h :: rest) = SystemExit 0).
  { unfold parse_args. rewrite (scan_words _ _ Hpairs).
    destruct (scan_total rest Hrest) as [parts Hparts].
    assert (Hscan : scan (h :: rest) = Pattern ((h, LetterO (Some HelpAction) h None) :: parts)).
    { cbn [scan]. destruct Hh as [<-|[<-|[]]]; cbn; by rewrite Hparts. }
    rewrite Hscan, consume_parts_of. done. }
  split; [done|]. unfold main_argv. by rewrite Hp.
Qed.

End CommandLine.



Lemma parse_args_to_args args :
  parse_args args =
    match scan args with
    | ScanError => SystemExit 2
    | ScanNotModelled => OutOfModel
    | Pattern parts => to_args (consume parts defaults [])
    end.
Proof. unfold parse_args, to_args. destruct (scan args); try done. Qed.

Lemma to_args_store pairs : to_args (finish (store defaults pairs) []) = parsed_pairs pairs.
Proof.
  pose proof (store_defaults pairs) as Hns.
  set (ns := store defaults pairs) in *. clearbody ns.
  unfold to_args, parsed_pairs, finish, holds_list. simpl. rewrite !(Hns _).
  destruct (given Ref_dir pairs) eqn:E1, (given Ref_prefix pairs) eqn:E2,
    (given Dsm pairs) eqn:E3, (given Cls pairs) eqn:E4; try reflexivity.
  cbn. rewrite !(Hns _), E1, E2, E3, E4. cbn.
  destruct (given Output_dir pairs), (given Mtl pairs), (given Dtm pairs); reflexivity.
Qed.

Lemma finish_parsed_extras ns extras ns' : finish ns extras = Parsed ns' -> extras = [].
Proof.
  unfold finish. destruct (List.filter _ _); [|done]. by destruct extras.
Qed.

Lemma consume_clean n :
  forall parts ns extras ns', length parts <= n ->
    consume parts ns extras = Parsed ns' ->
    extras = [] /\ Forall (fun x => ~ unusable x) parts.
Proof.
  induction n as [|n IH]; intros parts ns extras ns' Hlen Hc.
  - destruct parts; [|cbn in Hlen; lia]. cbn in Hc.
    split; [by eapply finish_parsed_extras|constructor].
  - destruct parts as [|[s l] rest].
    { cbn in Hc. split; [by eapply finish_parsed_extras|constructor]. }
    cbn [length] in Hlen. cbn [consume] in Hc.
    assert (Hextra : forall ns1, consume rest ns1 (extras ++ [s]) = Parsed ns' -> False).
    { intros ns1 Hc1. destruct (IH rest ns1 _ ns' ltac:(lia) Hc1) as [Hnil _].
      by apply app_eq_nil in Hnil as [_ ?]. }
    destruct l as [| |[[|d' r]|] os [ea|]]; try discriminate Hc;
      try (exfalso; by eapply Hextra).
    + by repeat case_match.
    + destruct (IH rest _ extras ns' ltac:(lia) Hc) as [-> Hall].
      split; [done|]. constructor; [|done].
      intros [[=]|(? & ? & [=])].
    + destruct rest as [|[v [| |]] rest']; try done.
      cbn [length] in Hlen.
      destruct (IH rest' _ extras ns' ltac:(lia) Hc) as [-> Hall].
      split; [done|]. constructor; [intros [[=]|(? & ? & [=])]|].
      constructor; [intros [[=]|(? & ? & [=])]|done].
Qed.

Lemma scan_unusable args parts s :
  scan args = Pattern parts -> In s args ->
  (s = "--" \/ exists os, parse_optional s = OptionTuple None os None) ->
  Exists unusable parts.
Proof.
  revert parts. induction args as [|t args IH]; intros parts Hscan Hin Hs; [done|].
  cbn [scan] in Hscan.
  destruct (String.eqb_spec t "--") as [->|Ht].
  { injection Hscan as <-. apply Exists_cons_hd. by left. }
  destruct (parse_optional t) as [|a os e| |] eqn:Hp; [| |done..];
    destruct (scan args) as [ps| |]; try done; injection Hscan as <-.
  - destruct Hin as [->|Hin]; [|apply Exists_cons_tl; by apply IH].
    destruct Hs as [->|[os Hs]]; [done|congruence].
  - destruct Hin as [->|Hin]; [|apply Exists_cons_tl; by apply IH].
    destruct Hs as [->|[os' Hs]]; [done|].
    rewrite Hp in Hs. injection Hs as -> -> ->.
    apply Exists_cons_hd. right. by eexists _, _.
Qed.

(** X18.  Words the parser does not take.  The script has no positional
    arguments, so a command line that parses holds no [--] separator, no
    option that the parser does not know, and no stray word after its
    option and value pairs. *)
Theorem unrecognized_words_are_rejected args a :
  parse_args args = Parsed a ->
  ~ In "--" args /\
  (forall s os, In s args -> parse_optional s <> OptionTuple None os None) /\
  (forall pairs s rest,
     Forall (fun x => argument_like (snd x)) pairs -> parse_optional s = NotOptional ->
     args <> words pairs ++ s :: rest).
Proof.
  intros Hp.
  assert (Hclean : exists parts ns, scan args = Pattern parts /\
            consume parts defaults [] = Parsed ns /\ Forall (fun x => ~ unusable x) parts).
  { revert Hp. rewrite parse_args_to_args. destruct (scan args) as [parts| |]; [|done..].
    destruct (consume parts defaults []) as [ns| |] eqn:Hc; [|done..]. intros _.
    exists parts, ns. split; [done|]. split; [done|].
    by destruct (consume_clean _ _ _ _ _ (le_n _) Hc). }
  destruct Hclean as (parts & ns & Hscan & Hc & Hall).
  assert (Hbad : forall s, In s args ->
            (s = "--" \/ exists os, parse_optional s = OptionTuple None os None) -> False).
  { intros s Hin Hs. pose proof (scan_unusable _ _ _ Hscan Hin Hs) as Hex.
    apply Exists_exists in Hex as (x & Hx & Hu). rewrite Forall_forall in Hall.
    by apply (Hall x Hx). }
  split; [|split].
  - intros Hin. apply (Hbad "--" Hin). by left.
  - intros s os Hin Hs. apply (Hbad s Hin). right. by exists os.
  - intros pairs s rest Hpairs Hs ->.
    destruct (String.eqb_spec s "--") as [->|Hne].
    { apply (Hbad "--"); [|by left]. apply in_or_app. right. by left. }
    rewrite (scan_words _ _ Hpairs) in Hscan. cbn [scan] in Hscan.
    apply String.eqb_neq in Hne. rewrite Hne, Hs in Hscan.
    destruct (scan rest) as [ps| |]; [|done..]. injection Hscan as <-.
    rewrite consume_parts_of in Hc. cbn [consume] in Hc.
    destruct (consume_clean _ _ _ _ _ (le_n _) Hc) as [Hnil _]. done.
Qed.

(** X20.  Values that start with a dash.  Written as one word with the
    equals sign, [--dsm=-x.tif], any value other than [--] is stored as it
    is; written as a word of its own after the option, a value that the
    parser reads as an option makes the parser exit with status 2. *)
Theorem dash_values_need_the_equals_sign pairs d v :
  Forall (fun x => argument_like (snd x)) pairs ->
  (v <> "--" ->
   parse_args (words pairs ++ [option_string d +:+ "=" +:+ v]) = parsed_pairs (pairs ++ [(d, v)])) /\
  (forall a os e rest,
     parse_optional v = OptionTuple a os e ->
     Forall (fun s => parse_optional s <> NotModelled) rest ->
     parse_args (words pairs ++ option_string d :: v :: rest) = SystemExit 2).
Proof.
  intros Hpairs. split.
  - intros Hv. rewrite parse_args_to_args, (scan_words _ _ Hpairs). cbn [scan].
    assert (Hde : String.eqb (option_string d +:+ "=" +:+ v) "--" = false) by (by destruct d).
    rewrite Hde, parse_optional_equals, consume_parts_of. cbn [consume].
    apply String.eqb_neq in Hv. rewrite Hv.
    rewrite <- to_args_store. unfold store. by rewrite foldl_app.
  - intros a os e rest Hp Hrest.
    rewrite parse_args_to_args, (scan_words _ _ Hpairs). cbn [scan].
    assert (Hd : String.eqb (option_string d) "--" = false) by (by destruct d).
    rewrite Hd, parse_optional_option_string.
    destruct (String.eqb_spec v "--") as [->|Hv].
    { by rewrite consume_parts_of. }
    rewrite Hp.
    assert (Hscan : (exists ps, scan rest = Pattern ps) \/ scan rest = ScanError).
    { clear -Hrest. induction Hrest as [|s rest Hs _ IH]; cbn [scan]; [left; by eexists|].
      destruct (String.eqb s "--"); [left; by eexists|].
      destruct (parse_optional s); try done; try (by right);
        destruct IH as [[ps ->]| ->]; try (by right); left; by eexists. }
    destruct Hscan as [[ps ->]| ->]; [|done].
    by rewrite consume_parts_of.
Qed.

(** ** The further properties on concrete runs *)

Lemma config_file_written_witness :
  result (@generate_config_file reference_collaborators "out" "AOI_1" "out/dsm.tif" "out/cls.tif"
            EmptyString EmptyString sample_fs) =
    Returned "out/config-out_dsm.tif+out_cls.tif.config" /\
  stat "out/config-out_dsm.tif+out_cls.tif.config"
    (final_fs (@generate_config_file reference_collaborators "out" "AOI_1" "out/dsm.tif"
                 "out/cls.tif" EmptyString EmptyString sample_fs)) =
    Some (File (Bytes "ref=AOI_1 dsm=out/dsm.tif cls=out/cls.tif mtl= dtm=")) /\
  inside "out" (resolve "out/config-out_dsm.tif+out_cls.tif.config").
Proof.
  assert (Hr : result (@generate_config_file reference_collaborators "out" "AOI_1" "out/dsm.tif"
                         "out/cls.tif" EmptyString EmptyString sample_fs) =
               Returned "out/config-out_dsm.tif+out_cls.tif.config") by (vm_compute; reflexivity).
  split; [exact Hr|].
  destruct (config_file_written (H := reference_collaborators) _ _ _ _ _ _ _ _ Hr)
    as (tmpl & doc & name & Ht & Hd & Hn & _ & _ & _ & Hst & Hin & _).
  vm_compute in Ht. injection Ht as <-.
  vm_compute in Hd. injection Hd as <-.
  vm_compute in Hn. injection Hn as <-.
  split; [exact Hst|exact (Hin eq_refl)].
Defined.



Lemma staged_file_as_input_is_refused_witness :
  os_path_exists "out" rerun_fs = true /\
  dsm rerun_args = staged "out" "in/dsm.tif" /\
  stat "out/dsm.tif" rerun_fs = Some (File (RasterData (Raster (Some utm17) Float32 "dsm"))) /\
  reference_main sample_now rerun_args rerun_fs =
    (Raised SameFileError, rerun_fs, [PathExists "out"; Copyfile "out/dsm.tif" "out/dsm.tif"]).
Proof.
  assert (Hex : os_path_exists "out" rerun_fs = true) by (vm_compute; reflexivity).
  assert (Hst : stat (dsm rerun_args) rerun_fs =
                Some (File (RasterData (Raster (Some utm17) Float32 "dsm"))))
    by (vm_compute; reflexivity).
  split; [exact Hex|]. split; [reflexivity|]. split; [exact Hst|].
  exact (proj2 (staged_file_as_input_is_refused (H := reference_collaborators) sample_now
                  rerun_args rerun_fs "out" "in/dsm.tif" _ eq_refl Hex eq_refl Hst)).
Defined.

Lemma input_not_a_file_aborts_staging_witness :
  In "in/missing.tif" (candidates missing_cls_args) /\
  (forall c, stat "in/missing.tif" sample_fs <> Some (File c)) /\
  (exists e, result (reference_main sample_now missing_cls_args sample_fs) = Raised e) /\
  Forall (fun e => phase e <= 1) (log (reference_main sample_now missing_cls_args sample_fs)).
Proof.
  assert (Hin : In "in/missing.tif" (candidates missing_cls_args)) by (right; left; reflexivity).
  assert (Hno : forall c, stat "in/missing.tif" sample_fs <> Some (File c))
    by (intros c Hc; vm_compute in Hc; discriminate Hc).
  split; [exact Hin|]. split; [exact Hno|].
  exact (input_not_a_file_aborts_staging (H := reference_collaborators) sample_now
           missing_cls_args sample_fs "in/missing.tif" Hin Hno).
Defined.

Lemma restaging_is_idempotent_witness :
  (forall a, In a (candidates sample_args) -> ~ inside "out" (resolve a)) /\
  result (stage_inputs sample_args "out" sample_fs) =
    Returned ("out/dsm.tif", "out/cls.tif", EmptyString, EmptyString) /\
  stage_inputs sample_args "out" (final_fs (stage_inputs sample_args "out" sample_fs)) =
    (Returned ("out/dsm.tif", "out/cls.tif", EmptyString, EmptyString),
     final_fs (stage_inputs sample_args "out" sample_fs),
     planned_copies "out" sample_args).
Proof.
  assert (Hout : forall a, In a (candidates sample_args) -> ~ inside "out" (resolve a)).
  { intros a [<-|[<-|[]]] [k Hk]; vm_compute in Hk; discriminate Hk. }
  assert (Hr : result (stage_inputs sample_args "out" sample_fs) =
               Returned ("out/dsm.tif", "out/cls.tif", EmptyString, EmptyString))
    by (vm_compute; reflexivity).
  split; [exact Hout|]. split; [exact Hr|].
  exact (restaging_is_idempotent sample_args "out" sample_fs _ eq_refl Hout Hr).
Defined.

Lemma staging_and_config_succeed_witness :
  result (prepare_working_dir sample_now sample_args sample_fs) = Returned "out" /\
  (forall a, In a (candidates sample_args) -> ~ inside "out" (resolve a)) /\
  no_sep "config-out_dsm.tif+out_cls.tif.config" /\
  exists answer rest,
    log (reference_main sample_now sample_args sample_fs) =
      log (prepare_working_dir sample_now sample_args sample_fs) ++
      planned_copies "out" sample_args ++
      [GetTemplate;
       PopulateTemplate "ref=$REF dsm=$DSM cls=$CLS mtl=$MTL dtm=$DTM" "AOI_1"
         "out/dsm.tif" "out/cls.tif" EmptyString EmptyString;
       GetFilename "out/dsm.tif" "out/cls.tif";
       WriteFile "out/config-out_dsm.tif+out_cls.tif.config"
         "ref=AOI_1 dsm=out/dsm.tif cls=out/cls.tif mtl= dtm=";
       GetCoordinateSystem "ref/AOI_1-DSM.tif" answer] ++ rest.
Proof.
  assert (Hprep : result (prepare_working_dir sample_now sample_args sample_fs) = Returned "out")
    by (vm_compute; reflexivity).
  assert (Hout : forall a, In a (candidates sample_args) -> ~ inside "out" (resolve a)).
  { intros a [<-|[<-|[]]] [k Hk]; vm_compute in Hk; discriminate Hk. }
  assert (Hns : no_sep "config-out_dsm.tif+out_cls.tif.config") by reflexivity.
  split; [exact Hprep|]. split; [exact Hout|]. split; [exact Hns|].
  refine (staging_and_config_succeed (H := reference_collaborators) sample_now sample_args
            sample_fs "ref=$REF dsm=$DSM cls=$CLS mtl=$MTL dtm=$DTM"
            "ref=AOI_1 dsm=out/dsm.tif cls=out/cls.tif mtl= dtm="
            "config-out_dsm.tif+out_cls.tif.config" Hprep _ _ eq_refl _ _ Hns eq_refl _).
  - intros c Hc. vm_compute in Hc. discriminate Hc.
  - intros a Ha. split; [|split; [by apply Hout|]].
    + destruct Ha as [<-|[<-|[]]]; eexists; vm_compute; reflexivity.
    + destruct Ha as [<-|[<-|[]]]; (split; [reflexivity|]);
        intros Hd; vm_compute in Hd; discriminate Hd.
  - vm_compute. reflexivity.
  - vm_compute. reflexivity.
  - intros Hd. vm_compute in Hd. discriminate Hd.
Defined.

Lemma engine_runs_on_prepared_directory_witness :
  In (Core3dMetrics ["--config"; "out/config-out_dsm.tif+out_cls.tif.config";
                     "--reference"; "ref"; "--test"; "out"; "--output"; "out"])
     (log (reference_main sample_now sample_args sample_fs)) /\
  List.filter is_copy (log (reference_main sample_now sample_args sample_fs)) =
    planned_copies "out" sample_args.
Proof.
  assert (Hin : In (Core3dMetrics ["--config"; "out/config-out_dsm.tif+out_cls.tif.config";
                                   "--reference"; "ref"; "--test"; "out"; "--output"; "out"])
                   (log (reference_main sample_now sample_args sample_fs))).
  { vm_compute. repeat (first [left; reflexivity | right]). }
  split; [exact Hin|].
  exact (proj1 (engine_runs_on_prepared_directory (H := reference_collaborators) sample_now
                  sample_args sample_fs _ Hin)).
Defined.

Lemma crs_failure_stops_the_run_witness :
  In (GetCoordinateSystem "ref/AOI_9-DSM.tif" (Raised (ExternalError "UnreadableRasterError")))
     (log (reference_main sample_now no_reference_args sample_fs)) /\
  result (reference_main sample_now no_reference_args sample_fs) =
    Raised (ExternalError "UnreadableRasterError") /\
  last (log (reference_main sample_now no_reference_args sample_fs)) =
    Some (GetCoordinateSystem "ref/AOI_9-DSM.tif" (Raised (ExternalError "UnreadableRasterError"))).
Proof.
  assert (Hin : In (GetCoordinateSystem "ref/AOI_9-DSM.tif"
                      (Raised (ExternalError "UnreadableRasterError")))
                   (log (reference_main sample_now no_reference_args sample_fs))).
  { vm_compute. repeat (first [left; reflexivity | right]). }
  split; [exact Hin|].
  destruct (crs_failure_stops_the_run (H := reference_collaborators) sample_now
              no_reference_args sample_fs _ _ Hin) as (_ & Hres & Hlast & _).
  split; [exact Hres|exact Hlast].
Defined.

Lemma options_in_any_order_witness :
  Forall (fun x => argument_like (snd x)) shuffled_pairs /\
  parse_args ["--dsm"; "a.tif"; "--cls"; "in/cls.tif"; "--ref-prefix"; "AOI_1";
              "--dsm"; "in/dsm.tif"; "--ref-dir"; "ref"] =
    Parsed {| output_dir := None; ref_dir := "ref"; ref_prefix := "AOI_1";
              dsm := "in/dsm.tif"; cls := "in/cls.tif"; mtl := None; dtm := None |}.
Proof.
  assert (Hall : Forall (fun x => argument_like (snd x)) shuffled_pairs).
  { unfold shuffled_pairs. repeat (constructor; [split; [discriminate|reflexivity]|]). constructor. }
  split; [exact Hall|].
  exact (proj2 (options_in_any_order shuffled_pairs Hall)).
Defined.

Lemma command_line_round_trip_witness :
  Forall (fun v => String.prefix "-" v = false)
    (ref_dir full_args :: ref_prefix full_args :: candidates full_args) /\
  command_line full_args =
    ["--output-dir"; "runs/today"; "--ref-dir"; "ref"; "--ref-prefix"; "AOI_1";
     "--dsm"; "in/dsm.tif"; "--cls"; "in/cls.tif"; "--mtl"; "in/mtl.tif"] /\
  parse_args (command_line full_args) = Parsed full_args.
Proof.
  assert (Hall : Forall (fun v => String.prefix "-" v = false)
                   (ref_dir full_args :: ref_prefix full_args :: candidates full_args)).
  { repeat (constructor; [reflexivity|]). constructor. }
  split; [exact Hall|]. split; [reflexivity|].
  exact (proj1 (command_line_round_trip (H := reference_collaborators) full_args sample_now
                  sample_fs Hall eq_refl)).
Defined.

Lemma required_options_enforced_witness :
  is_required Dsm = true /\
  Forall (fun s => String.prefix (shortest Dsm) s = false)
    ["--ref-dir"; "ref"; "--ref-prefix"; "AOI_1"; "--cls"; "in/cls.tif"] /\
  parse_args ["--ref-dir"; "ref"; "--ref-prefix"; "AOI_1"; "--cls"; "in/cls.tif"] = SystemExit 2 /\
  (forall r, @main_argv reference_collaborators sample_now
               ["--ref-dir"; "ref"; "--ref-prefix"; "AOI_1"; "--cls"; "in/cls.tif"] sample_fs <>
             Runs r).
Proof.
  assert (Hall : Forall (fun s => String.prefix (shortest Dsm) s = false)
                   ["--ref-dir"; "ref"; "--ref-prefix"; "AOI_1"; "--cls"; "in/cls.tif"]).
  { repeat (constructor; [reflexivity|]). constructor. }
  split; [reflexivity|]. split; [exact Hall|]. split; [reflexivity|].
  exact (proj2 (required_options_enforced (H := reference_collaborators) sample_now _ sample_fs
                  Dsm eq_refl Hall)).
Defined.

Lemma help_exits_before_anything_runs_witness :
  Forall (fun x => argument_like (snd x)) [(Dsm, "in/dsm.tif")] /\
  Forall (fun s => parse_optional s <> AmbiguousOption /\ parse_optional s <> NotModelled)
    ["left over"; "--verbose"] /\
  parse_args ["--dsm"; "in/dsm.tif"; "--help"; "left over"; "--verbose"] = SystemExit 0.
Proof.
  assert (Hpairs : Forall (fun x => argument_like (snd x)) [(Dsm, "in/dsm.tif")]).
  { constructor; [split; [discriminate|reflexivity]|constructor]. }
  assert (Hrest : Forall (fun s => parse_optional s <> AmbiguousOption /\
                                   parse_optional s <> NotModelled) ["left over"; "--verbose"]).
  { repeat (constructor; [split; discriminate|]). constructor. }
  split; [exact Hpairs|]. split; [exact Hrest|].
  exact (proj1 (help_exits_before_anything_runs (H := reference_collaborators) sample_now
                  sample_fs [(Dsm, "in/dsm.tif")] "--help" _ Hpairs
                  (or_intror (or_introl eq_refl)) Hrest)).
Defined.



Lemma staged_copies_are_faithful_witness :
  (forall a, In a (candidates sample_args) -> ~ inside "out" (resolve a)) /\
  NoDup (map (fun a => resolve (staged "out" a)) (candidates sample_args)) /\
  result (stage_inputs sample_args "out" sample_fs) =
    Returned ("out/dsm.tif", "out/cls.tif", EmptyString, EmptyString) /\
  exists c, stat "in/dsm.tif" sample_fs = Some (File c) /\
            stat "out/dsm.tif" (final_fs (stage_inputs sample_args "out" sample_fs)) =
              Some (File c) /\
            stat "in/dsm.tif" (final_fs (stage_inputs sample_args "out" sample_fs)) =
              Some (File c).
Proof.
  assert (Hout : forall a, In a (candidates sample_args) -> ~ inside "out" (resolve a)).
  { intros a [<-|[<-|[]]] [k Hk]; vm_compute in Hk; discriminate Hk. }
  assert (Hnd : NoDup (map (fun a => resolve (staged "out" a)) (candidates sample_args))).
  { apply (bool_decide_unpack _). vm_compute. exact I. }
  assert (Hr : result (stage_inputs sample_args "out" sample_fs) =
               Returned ("out/dsm.tif", "out/cls.tif", EmptyString, EmptyString))
    by (vm_compute; reflexivity).
  split; [exact Hout|]. split; [exact Hnd|]. split; [exact Hr|].
  destruct (staged_copies_are_faithful sample_args "out" sample_fs _ eq_refl Hout Hnd Hr)
    as [Hcopies _].
  exact (Hcopies "in/dsm.tif" (or_introl eq_refl)).
Defined.

Lemma unrecognized_words_are_rejected_witness :
  parse_args (command_line full_args) = Parsed full_args /\
  ~ In "--" (command_line full_args) /\
  (forall s os, In s (command_line full_args) ->
     parse_optional s <> OptionTuple None os None) /\
  (forall pairs s rest,
     Forall (fun x => argument_like (snd x)) pairs -> parse_optional s = NotOptional ->
     command_line full_args <> words pairs ++ s :: rest).
Proof.
  assert (Hp : parse_args (command_line full_args) = Parsed full_args)
    by (vm_compute; reflexivity).
  split; [exact Hp|].
  exact (unrecognized_words_are_rejected (command_line full_args) full_args Hp).
Defined.

Lemma dash_values_need_the_equals_sign_witness :
  Forall (fun x => argument_like (snd x)) dash_pairs /\
  parse_args ["--ref-dir"; "ref"; "--ref-prefix"; "AOI_1"; "--cls"; "in/cls.tif";
              "--dsm=-x.tif"] =
    Parsed {| output_dir := None; ref_dir := "ref"; ref_prefix := "AOI_1";
              dsm := "-x.tif"; cls := "in/cls.tif"; mtl := None; dtm := None |} /\
  parse_optional "-x.tif" = OptionTuple None "-x.tif" None /\
  parse_args ["--ref-dir"; "ref"; "--ref-prefix"; "AOI_1"; "--cls"; "in/cls.tif";
              "--dsm"; "-x.tif"] = SystemExit 2.
Proof.
  assert (Hall : Forall (fun x => argument_like (snd x)) dash_pairs).
  { unfold dash_pairs. repeat (constructor; [split; [discriminate|reflexivity]|]). constructor. }
  assert (Hne : "-x.tif" <> "--") by discriminate.
  assert (Hp : parse_optional "-x.tif" = OptionTuple None "-x.tif" None)
    by (vm_compute; reflexivity).
  destruct (dash_values_need_the_equals_sign dash_pairs Dsm "-x.tif" Hall) as [Hglued Hapart].
  split; [exact Hall|]. split; [exact (Hglued Hne)|]. split; [exact Hp|].
  exact (Hapart None "-x.tif" None [] Hp (Forall_nil_2 _)).
Defined.
